(** * Verification of the voice-call session manager (src/components/VoiceCall.tsx)

    Shallow embedding of the call screen [VoiceCall]: the base64 transport
    codec ([encode], [decode] with the browser's [btoa]/[atob]), the PCM
    sample conversions, the playback scheduler driven by [onmessage], the
    capture callback [onaudioprocess] with its mute gate, the waveform
    visualizer and [formatDuration]; the connection lifecycle
    ([handleStartCall], the session callbacks, the duration timer and the
    unmount cleanup) and the diagnostic footer [getApiKeyInfo].

    Modelling conventions.
    - JS strings are lists of UTF-16 code units ([list Z]); bytes of a
      [Uint8Array] are [Z] values in [0, 256).
    - Audio samples and clock readings are JS numbers.  They are modelled as
      rationals [Q].  For the sample conversions this is exact: a float32
      sample times 32768 and an int16 divided by 32768 are exactly
      representable doubles.  For the scheduler clock it idealises double
      addition as exact addition.
    - A thrown exception inside an async handler aborts the rest of that
      handler; the state written before the throw stays written. *)

From Stdlib Require Import ZArith Lia List Bool QArith Lqa Qround.
From Stdlib Require String Ascii.

Import ListNotations.

(** ** Codec utility *)
Module Codec.
Open Scope Z_scope.

(** Index [0..63] to the code unit of the base64 alphabet
    [A-Z a-z 0-9 + /]. *)
Definition b64char (i : Z) : Z :=
  if i <? 26 then 65 + i
  else if i <? 52 then 97 + (i - 26)
  else if i <? 62 then 48 + (i - 52)
  else if i =? 62 then 43 else 47.

(** Inverse lookup used by the forgiving-base64 decoder. *)
Definition b64index (c : Z) : option Z :=
  if (65 <=? c) && (c <=? 90) then Some (c - 65)
  else if (97 <=? c) && (c <=? 122) then Some (c - 97 + 26)
  else if (48 <=? c) && (c <=? 57) then Some (c - 48 + 52)
  else if c =? 43 then Some 62
  else if c =? 47 then Some 63
  else None.

(** The sextet of the 24-bit group [n] starting at bit [k], as a character
    ([n >> k & 63], written arithmetically). *)
Definition sext (n k : Z) : Z := b64char (n / 2 ^ k mod 64).

(** The encoding loop of [btoa] over a Latin-1 string: each group of three
    code units gives four characters; a final group of two or one gives
    three or two characters padded with [=] (code unit 61). *)
Fixpoint btoa_groups (l : list Z) : list Z :=
  match l with
  | b1 :: b2 :: b3 :: r =>
      let n := b1 * 65536 + b2 * 256 + b3 in
      [sext n 18; sext n 12; sext n 6; sext n 0] ++ btoa_groups r
  | [b1; b2] =>
      let n := b1 * 65536 + b2 * 256 in
      [sext n 18; sext n 12; sext n 6; 61]
  | [b1] =>
      let n := b1 * 65536 in
      [sext n 18; sext n 12; 61; 61]
  | [] => []
  end.

(** [btoa] throws [InvalidCharacterError] on a code unit above 255. *)
Definition btoa (s : list Z) : option (list Z) :=
  if forallb (fun c => c <=? 255) s then Some (btoa_groups s) else None.

Definition is_ascii_ws (c : Z) : bool :=
  (c =? 9) || (c =? 10) || (c =? 12) || (c =? 13) || (c =? 32).

(** Forgiving-base64 step: drop one or two trailing [=] (code unit 61). *)
Definition strip_pad (d : list Z) : list Z :=
  match rev d with
  | a :: r =>
      if a =? 61 then
        match r with
        | b :: r' => if b =? 61 then rev r' else rev r
        | [] => rev r
        end
      else d
  | [] => d
  end.

Fixpoint sextets_of (d : list Z) : option (list Z) :=
  match d with
  | [] => Some []
  | c :: r =>
      match b64index c, sextets_of r with
      | Some i, Some is => Some (i :: is)
      | _, _ => None
      end
  end.

(** Accumulate sextets into 24-bit buffers; a trailing buffer of 18 or 12
    bits gives two or one byte (the low bits are discarded). *)
Fixpoint decode_sextets (sx : list Z) : list Z :=
  match sx with
  | a :: b :: c :: d :: r =>
      let n := a * 262144 + b * 4096 + c * 64 + d in
      [n / 65536 mod 256; n / 256 mod 256; n mod 256] ++ decode_sextets r
  | [a; b; c] =>
      let n := a * 262144 + b * 4096 + c * 64 in
      [n / 65536 mod 256; n / 256 mod 256]
  | [a; b] =>
      let n := a * 262144 + b * 4096 in
      [n / 65536 mod 256]
  | _ => []
  end.

(** [atob]: forgiving-base64 decode; [None] is the thrown
    [InvalidCharacterError]. *)
Definition atob (s : list Z) : option (list Z) :=
  let d := filter (fun c => negb (is_ascii_ws c)) s in
  let d := if Nat.eqb (Nat.modulo (length d) 4) 0 then strip_pad d else d in
  if Nat.eqb (Nat.modulo (length d) 4) 1 then None
  else match sextets_of d with
       | Some sx => Some (decode_sextets sx)
       | None => None
       end.

(** [String.fromCharCode(b)]: the code unit [ToUint16(b)]. *)
Definition fromCharCode (b : Z) : Z := b mod 65536.

(** [function encode(bytes)]: build the binary string, then [btoa]. *)
Definition encode (bytes : list Z) : option (list Z) :=
  btoa (map fromCharCode bytes).

(** [function decode(base64)]: [atob], then store each [charCodeAt] into a
    [Uint8Array] (conversion [ToUint8]). *)
Definition decode (base64 : list Z) : option (list Z) :=
  match atob base64 with
  | Some bin => Some (map (fun c => c mod 256) bin)
  | None => None
  end.

Definition is_byte (b : Z) : Prop := 0 <= b < 256.

(** ECMAScript [ToInt16] of a finite number: truncate toward zero, then
    reduce modulo 2^16 into the signed range. *)
Definition Qtrunc (x : Q) : Z :=
  if Qle_bool 0%Q x then Qfloor x else Qceiling x.

Definition wrap16 (i : Z) : Z :=
  let m := i mod 65536 in if m >=? 32768 then m - 65536 else m.

Definition ToInt16 (x : Q) : Z := wrap16 (Qtrunc x).

(** Capture path, line 116: [int16[i] = inputData[i] * 32768]; the store
    into an [Int16Array] applies [ToInt16]. *)
Definition float_to_pcm (x : Q) : Z := ToInt16 (x * inject_Z 32768)%Q.

(** Playback path, line 40: [dataInt16[i] / 32768.0]. *)
Definition pcm_to_float (s : Z) : Q := (inject_Z s / inject_Z 32768)%Q.

(** The conversion as the specification words it:
    [round(clamp(x, -1, 1) * 32768)] cast to a 16-bit signed integer
    (rounding half up). *)
Definition Qclamp (lo hi x : Q) : Q :=
  if Qle_bool x lo then lo else if Qle_bool hi x then hi else x.

Definition float_to_pcm_spec (x : Q) : Z :=
  wrap16 (Qfloor (Qclamp (-1) 1 x * inject_Z 32768 + (1 # 2))%Q).

(** [new Int16Array(bytes.buffer)] on a little-endian platform: pairs of
    bytes read as signed 16-bit samples; an odd byte length throws
    [RangeError]. *)
Fixpoint int16_of_bytes (bs : list Z) : option (list Z) :=
  match bs with
  | [] => Some []
  | [_] => None
  | lo :: hi :: r =>
      match int16_of_bytes r with
      | Some vs => Some (wrap16 (lo + 256 * hi) :: vs)
      | None => None
      end
  end.

(** [new Uint8Array(int16.buffer)], little-endian. *)
Definition bytes_of_int16 (vs : list Z) : list Z :=
  flat_map (fun v => [v mod 256; v mod 65536 / 256]) vs.

Close Scope Z_scope.
End Codec.

(** ** The [VoiceCall] component *)
Module VoiceCall.
Import Codec.
Open Scope Q_scope.

(** [permissionState] of the component. *)
Inductive Perm := pending | requesting | granted | denied | error | connecting.

(** [Math.max] on non-NaN numbers. *)
Definition js_max (a b : Q) : Q := if Qle_bool a b then b else a.

(** An [AudioBuffer]: its channel data and [duration = length / rate]. *)
Record AudioBuffer := mkBuffer {
  buf_samples : list Q;
  buf_sampleRate : Z;
  buf_duration : Q
}.

(** [decodeAudioData(data, ctx, sampleRate, 1)] as called on line 130
    (mono): view the bytes as [Int16Array] (odd length throws), build a
    buffer of [frameCount] frames ([createBuffer] throws on length 0) and
    fill it with [dataInt16[i] / 32768.0].  [createBuffer] also throws
    [NotSupportedError] for a sample rate outside the range the browser
    supports; that check is not modelled, so this definition is faithful
    only at supported rates such as the 24000 of the call on line 130. *)
Definition decodeAudioData (data : list Z) (sampleRate : Z) : option AudioBuffer :=
  match int16_of_bytes data with
  | None => None
  | Some dataInt16 =>
      let frameCount := Z.of_nat (length dataInt16) in
      if (frameCount =? 0)%Z then None
      else Some (mkBuffer (map pcm_to_float dataInt16) sampleRate
                          (inject_Z frameCount / inject_Z sampleRate))
  end.

(** Playback scheduler state: [nextStartTimeRef], [sourcesRef] (the active
    set, by source id), the sources on which [stop()] was called, the log of
    [source.start(t)] calls as [(id, t, duration)], and the next fresh id. *)
Record Sched := mkSched {
  nextStartTime : Q;
  sources : list nat;
  stopped : list nat;
  started : list (nat * Q * Q);
  nextId : nat
}.

Definition sched0 : Sched := mkSched 0 [] [] [] 0.

(** Component state.  [startMuted] is the [isMuted] binding of the render
    whose [handleStartCall] is running; [processor] is the installed
    [onaudioprocess] closure, represented by the [isMuted] binding it
    captured; [sent] logs the payloads given to [sendRealtimeInput]. *)
Record VC := mkVC {
  permissionState : Perm;
  isMuted : bool;
  isModelSpeaking : bool;
  duration : Z;
  waveformData : list Q;
  sched : Sched;
  startMuted : option bool;
  processor : option bool;
  sent : list (list Z);
  closed : bool
}.

Definition init : VC :=
  mkVC pending false false 0 (repeat 2 40) sched0 None None [] false.

Definition set_perm (p : Perm) (s : VC) : VC :=
  mkVC p (isMuted s) (isModelSpeaking s) (duration s) (waveformData s) (sched s)
       (startMuted s) (processor s) (sent s) (closed s).
Definition set_muted (b : bool) (s : VC) : VC :=
  mkVC (permissionState s) b (isModelSpeaking s) (duration s) (waveformData s)
       (sched s) (startMuted s) (processor s) (sent s) (closed s).
Definition set_speaking (b : bool) (s : VC) : VC :=
  mkVC (permissionState s) (isMuted s) b (duration s) (waveformData s) (sched s)
       (startMuted s) (processor s) (sent s) (closed s).
Definition set_duration (d : Z) (s : VC) : VC :=
  mkVC (permissionState s) (isMuted s) (isModelSpeaking s) d (waveformData s)
       (sched s) (startMuted s) (processor s) (sent s) (closed s).
Definition set_wave (w : list Q) (s : VC) : VC :=
  mkVC (permissionState s) (isMuted s) (isModelSpeaking s) (duration s) w
       (sched s) (startMuted s) (processor s) (sent s) (closed s).
Definition set_sched (sc : Sched) (s : VC) : VC :=
  mkVC (permissionState s) (isMuted s) (isModelSpeaking s) (duration s)
       (waveformData s) sc (startMuted s) (processor s) (sent s) (closed s).
Definition set_start (m : option bool) (s : VC) : VC :=
  mkVC (permissionState s) (isMuted s) (isModelSpeaking s) (duration s)
       (waveformData s) (sched s) m (processor s) (sent s) (closed s).
Definition set_processor (m : option bool) (s : VC) : VC :=
  mkVC (permissionState s) (isMuted s) (isModelSpeaking s) (duration s)
       (waveformData s) (sched s) (startMuted s) m (sent s) (closed s).
Definition set_sent (l : list (list Z)) (s : VC) : VC :=
  mkVC (permissionState s) (isMuted s) (isModelSpeaking s) (duration s)
       (waveformData s) (sched s) (startMuted s) (processor s) l (closed s).
Definition set_closed (b : bool) (s : VC) : VC :=
  mkVC (permissionState s) (isMuted s) (isModelSpeaking s) (duration s)
       (waveformData s) (sched s) (startMuted s) (processor s) (sent s) b.

(** Waveform, line 141: [Array.from({length: 40}, () => Math.random() * 80 + 20)];
    [rnd i] is the [i]-th draw of [Math.random()]. *)
Definition regen (rnd : nat -> Q) : list Q :=
  map (fun i => rnd i * 80 + 20) (seq 0 40).

(** Waveform, line 197: [prev.map(v => Math.max(4, v * 0.9))]. *)
Definition decay (w : list Q) : list Q := map (fun v => js_max 4 (v * (9 # 10))) w.

(** The part of [onmessage] read by the handler: the inline audio payload
    (base64) and the [interrupted] flag. *)
Record Message := mkMessage {
  audioData : option (list Z);
  interrupted : bool
}.

(** Lines 143-148: stop every source, clear the set, reset the cursor. *)
Definition interrupt_branch (m : Message) (s : VC) : VC :=
  if interrupted m then
    let sc := sched s in
    set_speaking false
      (set_sched (mkSched 0 [] (stopped sc ++ sources sc) (started sc) (nextId sc)) s)
  else s.

(** Lines 126-142 once the cursor has been advanced to [max(next, now)]:
    start the source at the cursor, add its duration, add it to the set and
    regenerate the waveform. *)
Definition schedule (rnd : nat -> Q) (buf : AudioBuffer) (s : VC) : VC :=
  let sc := sched s in
  let id := nextId sc in
  let t := nextStartTime sc in
  set_wave (regen rnd)
    (set_sched (mkSched (t + buf_duration buf) (sources sc ++ [id]) (stopped sc)
                        (started sc ++ [(id, t, buf_duration buf)]) (S id)) s).

Definition advance_cursor (now : Q) (s : VC) : VC :=
  let sc := sched s in
  set_sched (mkSched (js_max (nextStartTime sc) now) (sources sc) (stopped sc)
                     (started sc) (nextId sc)) s.

(** The whole decode step of line 130: [decodeAudioData(decode(audioData), ...)]. *)
Definition decode_chunk (d : list Z) : option AudioBuffer :=
  match decode d with
  | Some bytes => decodeAudioData bytes 24000
  | None => None
  end.

(** [onmessage] at output clock [now] ([outCtx.currentTime]).  A failure of
    [decode] or [decodeAudioData] throws out of the async handler after
    lines 127 and 129 ran, so the interrupted branch is then not reached. *)
Definition onmessage (now : Q) (rnd : nat -> Q) (m : Message) (s : VC) : VC :=
  match audioData m with
  | Some ((_ :: _) as d) =>
      let s1 := advance_cursor now (set_speaking true s) in
      match decode_chunk d with
      | Some buf => interrupt_branch m (schedule rnd buf s1)
      | None => s1
      end
  | _ => interrupt_branch m s
  end.

(** The [ended] listener of a source (lines 134-137). *)
Definition on_ended (id : nat) (s : VC) : VC :=
  let sc := sched s in
  let srcs := remove Nat.eq_dec id (sources sc) in
  let s1 := set_sched (mkSched (nextStartTime sc) srcs (stopped sc) (started sc)
                               (nextId sc)) s in
  match srcs with [] => set_speaking false s1 | _ => s1 end.

(** [scriptProcessor.onaudioprocess] (lines 112-120) with captured mute
    binding [m]. *)
Definition onaudioprocess (m : bool) (frame : list Q) (s : VC) : VC :=
  if m then s
  else
    let int16 := map float_to_pcm frame in
    match encode (bytes_of_int16 int16) with
    | Some data => set_sent (sent s ++ [data]) s
    | None => s
    end.

(** Events reaching the component. *)
Inductive Event :=
  | StartCall (micGranted : bool)   (* click on Connect: [handleStartCall] *)
  | Open                            (* [onopen] *)
  | Msg (now : Q) (rnd : nat -> Q) (m : Message)
  | Ended (id : nat)
  | AudioProcess (frame : list Q)
  | ToggleMute                      (* [setIsMuted(!isMuted)] *)
  | TimerTick                       (* 1 s interval *)
  | WaveTick                        (* 100 ms interval *)
  | CloseEv                         (* [onclose] *)
  | ErrorEv.                        (* [onerror] *)

(** One event.  [handleStartCall] runs in the render of the click, so its
    callbacks see that render's [isMuted] ([startMuted]).  [onclose] reads
    the click-time [permissionState], which is never [connecting] (the
    button is disabled then), so it takes the [onClose()] branch. The 100 ms
    waveform interval only exists while the model is not speaking. *)
Definition step (e : Event) (s : VC) : VC :=
  match e with
  | StartCall true => set_start (Some (isMuted s)) (set_perm connecting s)
  | StartCall false => set_perm denied s
  | Open =>
      match startMuted s with
      | Some m => set_processor (Some m) (set_perm granted s)
      | None => s
      end
  | Msg now rnd m => onmessage now rnd m s
  | Ended id => on_ended id s
  | AudioProcess frame =>
      match processor s with
      | Some m => onaudioprocess m frame s
      | None => s
      end
  | ToggleMute => set_muted (negb (isMuted s)) s
  | TimerTick => set_duration (duration s + 1)%Z s
  | WaveTick => if isModelSpeaking s then s else set_wave (decay (waveformData s)) s
  | CloseEv => set_closed true s
  | ErrorEv => set_perm error s
  end.

Definition run (evs : list Event) (s : VC) : VC :=
  fold_left (fun st e => step e st) evs s.

Close Scope Q_scope.
End VoiceCall.

(** ** [formatDuration] (lines 61-65) *)
Module Format.
Import String Ascii.
Open Scope Z_scope.

Definition digit_char (d : Z) : ascii := ascii_of_nat (48 + Z.to_nat d).

(** Decimal digits of a non-negative integer, most significant first; the
    fuel bounds the number of digits. *)
Fixpoint digits_fuel (fuel : nat) (n : Z) : string :=
  match fuel with
  | O => EmptyString
  | S f =>
      if n <? 10 then String (digit_char n) EmptyString
      else append (digits_fuel f (n / 10)) (String (digit_char (n mod 10)) EmptyString)
  end.

Definition digits (n : Z) : string := digits_fuel (S (Z.to_nat (Z.log2 n))) n.

(** [Number.prototype.toString()] of an integer-valued number. *)
Definition toString (n : Z) : string :=
  if n <? 0 then String "-" (digits (- n)) else digits n.

Fixpoint fill (k : nat) (c : ascii) : string :=
  match k with O => EmptyString | S k' => String c (fill k' c) end.

(** [s.padStart(w, c)] for a one-character filler. *)
Definition padStart (w : nat) (c : ascii) (s : string) : string :=
  if Nat.leb w (length s) then s else append (fill (w - length s) c) s.

(** [Math.floor(seconds / 60)] is floor division; [seconds % 60] is the
    remainder taking the sign of the dividend. *)
Definition formatDuration (seconds : Z) : string :=
  let mins := seconds / 60 in
  let secs := Z.rem seconds 60 in
  append (padStart 2 "0" (toString mins))
         (String ":" (padStart 2 "0" (toString secs))).

(** The value of a string of decimal digits ([None] on another character). *)
Fixpoint decimal_value_acc (acc : Z) (s : string) : option Z :=
  match s with
  | EmptyString => Some acc
  | String c r =>
      let d := Z.of_nat (nat_of_ascii c) - 48 in
      if (0 <=? d) && (d <=? 9) then decimal_value_acc (acc * 10 + d) r else None
  end.

(** [str] is [n] written in decimal and left-padded with ['0'] to at least
    [w] characters: digits only, value [n], at least [w] long, and no
    leading ['0'] beyond the padding. *)
Definition padded_decimal (w : nat) (str : string) (n : Z) : Prop :=
  decimal_value_acc 0 str = Some n /\ (w <= length str)%nat /\
  ((w < length str)%nat -> exists c r, str = String c r /\ c <> "0"%char).

Close Scope Z_scope.
End Format.

(** ** Auxiliary definitions used to state properties *)
Module Props.
Import Codec VoiceCall.
Open Scope Z_scope.

(** The sextets that [btoa] turns into characters, and its padding. *)
Fixpoint sextets (l : list Z) : list Z :=
  match l with
  | b1 :: b2 :: b3 :: r =>
      let n := b1 * 65536 + b2 * 256 + b3 in
      [n / 2 ^ 18 mod 64; n / 2 ^ 12 mod 64; n / 2 ^ 6 mod 64; n / 2 ^ 0 mod 64]
        ++ sextets r
  | [b1; b2] =>
      let n := b1 * 65536 + b2 * 256 in
      [n / 2 ^ 18 mod 64; n / 2 ^ 12 mod 64; n / 2 ^ 6 mod 64]
  | [b1] =>
      let n := b1 * 65536 in [n / 2 ^ 18 mod 64; n / 2 ^ 12 mod 64]
  | [] => []
  end.

Fixpoint pad_of (l : list Z) : list Z :=
  match l with
  | _ :: _ :: _ :: r => pad_of r
  | [_; _] => [61]
  | [_] => [61; 61]
  | [] => []
  end.

Close Scope Z_scope.
Open Scope Q_scope.

(** Whether the payload of a message, if any, decodes. *)
Definition audio_ok (a : option (list Z)) : bool :=
  match a with
  | Some ((_ :: _) as d) => match decode_chunk d with Some _ => true | None => false end
  | _ => true
  end.

(** Messages carrying one audio payload each, at the given clock readings. *)
Definition audio_events (rnd : nat -> Q) (cs : list (Q * list Z)) : list Event :=
  map (fun c => Msg (fst c) rnd (mkMessage (Some (snd c)) false)) cs.

Definition decodable (c : Q * list Z) : bool :=
  match decode_chunk (snd c) with Some _ => true | None => false end.

Definition dur (c : Q * list Z) : Q :=
  match decode_chunk (snd c) with Some b => buf_duration b | None => 0 end.

Definition start_of (e : nat * Q * Q) : Q := snd (fst e).
Definition dur_of (e : nat * Q * Q) : Q := snd e.

(** Start times as the scheduler specification computes them:
    [start = max(cursor, now)], then [cursor = start + duration]. *)
Fixpoint sched_spec (t : Q) (cs : list (Q * list Z)) : list Q :=
  match cs with
  | [] => []
  | c :: r => let st := js_max t (fst c) in st :: sched_spec (st + dur c) r
  end.

(** Each start is at or after the cursor, which then moves to the end of
    that chunk: [start(C1) >= cursor], [start(Ci) >= end(C(i-1))]. *)
Fixpoint chained (t : Q) (l : list (nat * Q * Q)) : Prop :=
  match l with
  | [] => True
  | e :: r => t <= start_of e /\ chained (start_of e + dur_of e) r
  end.

(** [t0], [t0 + d1], [t0 + d1 + d2], ... *)
Fixpoint prefix_starts (t : Q) (ds : list Q) : list Q :=
  match ds with
  | [] => []
  | d :: r => t :: prefix_starts (t + d) r
  end.

(** Every chunk arrives before the previous one has finished playing. *)
Fixpoint early (t : Q) (cs : list (Q * list Z)) : Prop :=
  match cs with
  | [] => True
  | c :: r => fst c <= t /\ early (t + dur c) r
  end.

(** The first chunk arrives with the clock at [t0]; the later ones early. *)
Definition early_from (t0 : Q) (cs : list (Q * list Z)) : Prop :=
  match cs with
  | [] => True
  | c :: r => fst c == t0 /\ early (t0 + dur c) r
  end.

(** Waveform invariant: 40 values, each in [0, 100] and not zero. *)
Definition wave_ok (w : list Q) : Prop :=
  length w = 40%nat /\ Forall (fun v => 0 <= v <= 100 /\ ~ v == 0) w.

(** Every [Math.random()] draw of the trace lies in [0, 1). *)
Definition rnd_ok (evs : list Event) : Prop :=
  Forall (fun e => match e with
                   | Msg _ rnd _ => forall i, 0 <= rnd i < 1
                   | _ => True
                   end) evs.

(** The stronger invariant used to prove [wave_ok]. *)
Definition wave_inv (w : list Q) : Prop :=
  length w = 40%nat /\ Forall (fun v => 2 <= v <= 100) w.

Close Scope Q_scope.
End Props.

(* ================================================================== *)
(** * Diagnostic footer: [getApiKeyInfo] (lines 12-17) *)
Module ApiKey.
Import String.
Open Scope Z_scope.

(** A string literal as its list of code units (the literals used here are
    ASCII). *)
Fixpoint units (s : String.string) : list Z :=
  match s with
  | String.EmptyString => []
  | String.String c r => Z.of_nat (Ascii.nat_of_ascii c) :: units r
  end.

(** [process.env.API_KEY] is a string or [undefined] ([None]).  [!key]
    holds for [undefined] and for the empty string; [key.substring(0, 3)]
    keeps the first three code units (all of them when there are fewer). *)
Definition getApiKeyInfo (key : option (list Z)) : list Z :=
  match key with
  | None | Some [] => units "Missing"
  | Some k =>
      if list_eq_dec Z.eq_dec k (units "undefined") then units "String 'undefined'"
      else units "Exists (Starts with: " ++ firstn 3 k ++ units "...)"
  end.

Close Scope Z_scope.
End ApiKey.

(* ================================================================== *)
(** * Connection lifecycle of the call screen

    The permission and error fields of [VoiceCall], the runs of
    [handleStartCall] (lines 67-181), the callbacks of the sessions it opens
    (lines 105-165), the duration interval kept in [timerRef] and the
    unmount cleanup (lines 183-192).  The audio paths are in [VoiceCall].

    Each click on Connect starts one run of [handleStartCall]; its awaits
    are resumed by separate events, in any order and interleaved with the
    other events.  A run and the session callbacks it creates read the
    [permissionState] of the render in which the button was clicked. *)
Module Lifecycle.
Import VoiceCall ApiKey String.
Open Scope Z_scope.

(** Where a run of [handleStartCall] is suspended, with the
    [permissionState] its closures captured: awaiting [getUserMedia]
    (line 76), inside the [try] of lines 88-174 before [ai.live.connect]
    was called, or awaiting the session (line 174). *)
Inductive Task := MicWait (p : Perm) | Setup (p : Perm) | AwaitSession (p : Perm).

(** [tasks]: the runs started so far ([None] once finished); [sessions]:
    the sessions created by [ai.live.connect], each with the
    [permissionState] its callbacks captured; [intervals]: the live
    [setInterval] ids; [timerRef]: [timerRef.current]; [nextTimer]: the id
    the next [setInterval] returns (browsers hand out positive ids);
    [onCloseCalls]: the calls of the [onClose] prop. *)
Record Life := mkLife {
  lperm : Perm;
  errorMessage : list Z;
  debugInfo : list Z;
  callStatus : list Z;
  tasks : list (option Task);
  sessions : list Perm;
  intervals : list nat;
  timerRef : option nat;
  nextTimer : nat;
  lduration : Z;
  onCloseCalls : nat
}.

Definition linit : Life :=
  mkLife pending [] [] (units "Line Clear Hai") [] [] [] None 1 0 0.

(** The Connect button (lines 245-253) is rendered only on the
    pre-call screen ([permissionState !== 'granted']) and is disabled while
    [requesting] or [connecting]. *)
Definition connect_enabled (p : Perm) : bool :=
  match p with pending | denied | error => true | _ => false end.

Definition perm_eqb (p q : Perm) : bool :=
  match p, q with
  | pending, pending | requesting, requesting | granted, granted
  | denied, denied | error, error | connecting, connecting => true
  | _, _ => false
  end.

(** JS [x || d] on a string. *)
Definition or_default (x d : list Z) : list Z :=
  match x with [] => d | _ => x end.

(** Replace the [i]-th element, if there is one. *)
Fixpoint upd {A} (l : list A) (i : nat) (v : A) : list A :=
  match l, i with
  | [], _ => []
  | _ :: r, O => v :: r
  | x :: r, S i => x :: upd r i v
  end.

Inductive LEvent :=
  | Click                                (* Connect Now: [handleStartCall] *)
  | MicResolve (i : nat)                 (* [getUserMedia] of run [i] resolves *)
  | MicReject (i : nat)                  (* ... or rejects *)
  | Connect (i : nat)                    (* run [i] reaches [ai.live.connect] *)
  | SetupThrow (i : nat) (msg : list Z)  (* run [i] throws in its [try]; [err.message] *)
  | Resolved (i : nat)                   (* run [i]: the session promise resolves *)
  | SOpen (j : nat)                      (* [onopen] of session [j] *)
  | SClose (j : nat) (reason : list Z)   (* [onclose] of session [j]; [e.reason] *)
  | SError (j : nat) (msg : list Z)      (* [onerror] of session [j]; [e.message] *)
  | Tick (id : nat)                      (* interval [id] fires *)
  | Unmount.                             (* cleanup of the first effect *)

Definition lstep (e : LEvent) (s : Life) : Life :=
  let '(mkLife p em di cs ts ss iv tr nt d oc) := s in
  match e with
  | Click =>
      if connect_enabled p then
        mkLife requesting [] [] (units "Mic activation...") (ts ++ [Some (MicWait p)])
               ss iv tr nt d oc
      else s
  | MicReject i =>
      match nth_error ts i with
      | Some (Some (MicWait _)) =>
          mkLife denied (units "Mic access nahi mila. Browser settings check karein.")
                 di cs (upd ts i None) ss iv tr nt d oc
      | _ => s
      end
  | MicResolve i =>
      match nth_error ts i with
      | Some (Some (MicWait q)) =>
          mkLife connecting em di (units "Connecting to Sahara...")
                 (upd ts i (Some (Setup q))) ss iv tr nt d oc
      | _ => s
      end
  | Connect i =>
      match nth_error ts i with
      | Some (Some (Setup q)) =>
          mkLife p em di cs (upd ts i (Some (AwaitSession q))) (ss ++ [q]) iv tr nt d oc
      | _ => s
      end
  | SetupThrow i msg =>
      match nth_error ts i with
      | Some (Some (Setup _ | AwaitSession _)) =>
          mkLife error (units "Connection failed at startup.")
                 (or_default msg (units "Check network or API availability."))
                 cs (upd ts i None) ss iv tr nt d oc
      | _ => s
      end
  | Resolved i =>
      match nth_error ts i with
      | Some (Some (AwaitSession _)) => mkLife p em di cs (upd ts i None) ss iv tr nt d oc
      | _ => s
      end
  | SOpen j =>
      match nth_error ss j with
      | Some _ =>
          mkLife granted em di (units "Connected") ts ss (iv ++ [nt]) (Some nt) (S nt) d oc
      | None => s
      end
  | SClose j reason =>
      match nth_error ss j with
      | Some q =>
          if perm_eqb q connecting then
            mkLife error (units "Server connection rejected.")
                   (units "Reason: " ++
                    or_default reason
                      (units "Unknown session close. Check API key in Vercel settings."))
                   cs ts ss iv tr nt d oc
          else mkLife p em di cs ts ss iv tr nt d (S oc)
      | None => s
      end
  | SError j msg =>
      match nth_error ss j with
      | Some _ =>
          mkLife error (units "API Issue Detected.")
                 (or_default msg (units "Key invalid ho sakti hai ya billing setup nahi hai."))
                 cs ts ss iv tr nt d oc
      | None => s
      end
  | Tick id =>
      if existsb (Nat.eqb id) iv then mkLife p em di cs ts ss iv tr nt (d + 1) oc else s
  | Unmount =>
      match tr with
      | Some t => mkLife p em di cs ts ss (remove Nat.eq_dec t iv) tr nt d oc
      | None => s
      end
  end.

Definition lrun (evs : list LEvent) (s : Life) : Life :=
  fold_left (fun st e => lstep e st) evs s.

Close Scope Z_scope.
End Lifecycle.

(* ================================================================== *)
(** * Auxiliary predicates for the further properties *)
Module ExtraProps.
Import VoiceCall ApiKey Lifecycle String.

(** The ids of a log of [source.start] calls. *)
Definition source_ids (l : list (nat * Q * Q)) : list nat := map (fun e => fst (fst e)) l.

(** Bookkeeping of the scheduler: started ids are below [nextId] and
    distinct; the stopped and the active sources are distinct and were all
    started. *)
Definition sched_inv (sc : Sched) : Prop :=
  (forall i, In i (source_ids (started sc)) -> (i < nextId sc)%nat) /\
  NoDup (source_ids (started sc)) /\
  NoDup (stopped sc ++ sources sc) /\
  incl (stopped sc ++ sources sc) (source_ids (started sc)).

(** Events other than a server message and the end of a source. *)
Definition quiet (e : Event) : bool :=
  match e with Msg _ _ _ | Ended _ => false | _ => true end.

(** The [permissionState] captured by a run of [handleStartCall]. *)
Definition task_perm (o : option Task) : option Perm :=
  match o with
  | Some (MicWait p) | Some (Setup p) | Some (AwaitSession p) => Some p
  | None => None
  end.

(** Invariant of the lifecycle: every captured [permissionState] is one at
    which the Connect button can be clicked, and the error fields match the
    screen that shows them. *)
Definition life_inv (s : Life) : Prop :=
  Forall (fun o => match task_perm o with Some p => connect_enabled p = true | None => True end)
         (tasks s) /\
  Forall (fun p => connect_enabled p = true) (sessions s) /\
  (lperm s = error ->
     (errorMessage s = units "Connection failed at startup." \/
      errorMessage s = units "API Issue Detected.") /\ debugInfo s <> []) /\
  (lperm s = denied ->
     errorMessage s = units "Mic access nahi mila. Browser settings check karein.").

End ExtraProps.

(* ================================================================== *)
(** * Properties of the codec *)
Module CodecFacts.
Import Codec Props.
Open Scope Z_scope.

(** Induction following the three-byte groups of base64. *)
Lemma list_ind3 (P : list Z -> Prop) :
  P [] -> (forall a, P [a]) -> (forall a b, P [a; b]) ->
  (forall a b c r, P r -> P (a :: b :: c :: r)) -> forall l, P l.
Proof.
  intros H0 H1 H2 H3.
  fix IH 1. intros [|a [|b [|c r]]];
    [exact H0 | apply H1 | apply H2 | apply H3, IH].
Qed.

Lemma b64index_b64char (i : Z) : 0 <= i < 64 -> b64index (b64char i) = Some i.
Proof.
  intros Hi. unfold b64char, b64index.
  repeat match goal with
  | |- context [?x <? ?y] => destruct (Z.ltb_spec x y)
  | |- context [?x <=? ?y] => destruct (Z.leb_spec x y)
  | |- context [?x =? ?y] => destruct (Z.eqb_spec x y)
  end; cbv [andb]; try lia; f_equal; lia.
Qed.

Lemma b64char_not_special (i : Z) :
  0 <= i < 64 -> b64char i <> 61 /\ is_ascii_ws (b64char i) = false.
Proof.
  intros Hi. unfold b64char, is_ascii_ws.
  repeat match goal with
  | |- context [?x <? ?y] => destruct (Z.ltb_spec x y)
  | |- context [?x =? ?y] => destruct (Z.eqb_spec x y)
  end; cbv [orb]; split; try lia; try reflexivity; congruence.
Qed.

Lemma btoa_groups_split (l : list Z) :
  btoa_groups l = map b64char (sextets l) ++ pad_of l.
Proof.
  induction l using list_ind3; simpl; try reflexivity.
  rewrite IHl. reflexivity.
Qed.

Lemma sextets_range (l : list Z) : Forall (fun i => 0 <= i < 64) (sextets l).
Proof.
  induction l using list_ind3; simpl;
    repeat constructor; try (apply Z.mod_pos_bound; lia); assumption.
Qed.

Lemma sextets_length (l : list Z) :
  exists k, (length (sextets l) = 4 * k \/ length (sextets l) = 4 * k + 3
       \/ length (sextets l) = 4 * k + 2)%nat.
Proof.
  induction l using list_ind3; simpl.
  - exists 0%nat; lia.
  - exists 0%nat; lia.
  - exists 0%nat; lia.
  - destruct IHl as [k Hk]. exists (S k). lia.
Qed.

Lemma pad_length (l : list Z) :
  ((length (sextets l) + length (pad_of l)) mod 4 = 0)%nat.
Proof.
  induction l using list_ind3; try reflexivity.
  replace (length (sextets (a :: b :: c :: l))) with (4 + length (sextets l))%nat
    by reflexivity.
  replace (pad_of (a :: b :: c :: l)) with (pad_of l) by reflexivity.
  replace (4 + length (sextets l) + length (pad_of l))%nat
    with (length (sextets l) + length (pad_of l) + 1 * 4)%nat by lia.
  rewrite Nat.Div0.mod_add. exact IHl.
Qed.

Lemma filter_all {A} (f : A -> bool) (l : list A) :
  Forall (fun x => f x = true) l -> filter f l = l.
Proof. induction 1; simpl; [reflexivity|]. rewrite H, IHForall. reflexivity. Qed.

Lemma strip_pad_split (sx : list Z) (l : list Z) :
  Forall (fun i => 0 <= i < 64) sx ->
  strip_pad (map b64char sx ++ pad_of l) = map b64char sx.
Proof.
  intros Hsx.
  assert (Hlast : forall y r, rev (map b64char sx) = y :: r -> (y =? 61) = false).
  { intros y r Hr. apply Z.eqb_neq.
    assert (In y (map b64char sx)) as Hin
      by (apply in_rev; rewrite Hr; left; reflexivity).
    apply in_map_iff in Hin as [i [<- Hi]].
    rewrite Forall_forall in Hsx. apply b64char_not_special, Hsx, Hi. }
  assert (Hp : pad_of l = [] \/ pad_of l = [61] \/ pad_of l = [61; 61]).
  { induction l using list_ind3; simpl; auto. }
  unfold strip_pad.
  destruct Hp as [Hp|[Hp|Hp]]; rewrite Hp.
  - rewrite app_nil_r. destruct (rev (map b64char sx)) as [|y r] eqn:E; [reflexivity|].
    rewrite (Hlast y r eq_refl). reflexivity.
  - rewrite rev_app_distr. simpl.
    destruct (rev (map b64char sx)) as [|y r] eqn:E.
    + apply (f_equal (@rev Z)) in E. rewrite rev_involutive in E. simpl. now rewrite E.
    + rewrite (Hlast y r eq_refl). rewrite <- E, rev_involutive. reflexivity.
  - rewrite rev_app_distr. simpl. rewrite rev_involutive. reflexivity.
Qed.

Lemma sextets_of_map (sx : list Z) :
  Forall (fun i => 0 <= i < 64) sx -> sextets_of (map b64char sx) = Some sx.
Proof.
  induction 1; simpl; [reflexivity|].
  rewrite b64index_b64char by assumption. rewrite IHForall. reflexivity.
Qed.

Lemma decode_sextets_sextets (l : list Z) :
  Forall is_byte l -> decode_sextets (sextets l) = l.
Proof.
  induction l using list_ind3; intros Hl; unfold is_byte in Hl;
    repeat match goal with H : Forall _ (_ :: _) |- _ => inversion H; clear H; subst end;
    simpl.
  - reflexivity.
  - f_equal. Z.div_mod_to_equations; lia.
  - f_equal; [|f_equal]; Z.div_mod_to_equations; lia.
  - rewrite IHl by assumption.
    f_equal; [|f_equal; [|f_equal]]; Z.div_mod_to_equations; lia.
Qed.

Lemma btoa_groups_no_ws (l : list Z) :
  Forall (fun c => negb (is_ascii_ws c) = true) (btoa_groups l).
Proof.
  rewrite btoa_groups_split. apply Forall_app. split.
  - apply Forall_map. eapply Forall_impl; [|apply sextets_range].
    intros i Hi. simpl. rewrite (proj2 (b64char_not_special i Hi)). reflexivity.
  - induction l using list_ind3; simpl; repeat constructor; assumption.
Qed.

Lemma atob_btoa_groups (l : list Z) :
  Forall is_byte l -> atob (btoa_groups l) = Some l.
Proof.
  intros Hl. unfold atob.
  rewrite (filter_all _ _ (btoa_groups_no_ws l)).
  rewrite btoa_groups_split, length_app, length_map, pad_length. cbn [Nat.eqb].
  rewrite (strip_pad_split _ _ (sextets_range l)), length_map.
  destruct (sextets_length l) as [k Hk].
  replace (Nat.eqb (length (sextets l) mod 4) 1) with false.
  - rewrite (sextets_of_map _ (sextets_range l)).
    rewrite decode_sextets_sextets by assumption. reflexivity.
  - symmetry. apply Nat.eqb_neq.
    destruct Hk as [Hk|[Hk|Hk]]; rewrite Hk;
      [rewrite Nat.mul_comm, Nat.Div0.mod_mul
      |rewrite Nat.add_comm, Nat.mul_comm, Nat.Div0.mod_add
      |rewrite Nat.add_comm, Nat.mul_comm, Nat.Div0.mod_add]; simpl; lia.
Qed.

Lemma map_id_on {A} (f : A -> A) (P : A -> Prop) (l : list A) :
  (forall x, P x -> f x = x) -> Forall P l -> map f l = l.
Proof. intros Hf. induction 1; simpl; [reflexivity|]. rewrite Hf, IHForall; auto. Qed.

Close Scope Z_scope.
End CodecFacts.

(* ================================================================== *)
(** * Properties of the sample conversions *)
Module PcmFacts.
Import Codec.

Lemma wrap16_small (i : Z) : (-32768 <= i <= 32767)%Z -> wrap16 i = i.
Proof.
  intros Hi. unfold wrap16.
  destruct (Z.leb_spec 0 i).
  - rewrite Z.mod_small by lia. destruct (Z.geb_spec i 32768); lia.
  - replace (i mod 65536)%Z with (i + 65536)%Z.
    + destruct (Z.geb_spec (i + 65536) 32768); lia.
    + apply Z.mod_unique with (-1)%Z; lia.
Qed.

Lemma Qtrunc_bounds (y : Q) :
  -32768 <= y -> y < 32768 -> (-32768 <= Qtrunc y <= 32767)%Z.
Proof.
  intros H1 H2. unfold Qtrunc.
  destruct (Qle_bool 0 y) eqn:E.
  - apply Qle_bool_iff in E.
    pose proof (Qfloor_resp_le 0 y E) as F0.
    pose proof (Qfloor_le y) as F1.
    assert (inject_Z (Qfloor y) < inject_Z 32768) as F2
      by (eapply Qle_lt_trans; [exact F1| exact H2]).
    rewrite <- Zlt_Qlt in F2. rewrite (eq_refl : Qfloor 0 = 0%Z) in F0. lia.
  - assert (y <= 0) as E'.
    { apply Qlt_le_weak, Qnot_le_lt. intros C. apply Qle_bool_iff in C. congruence. }
    pose proof (Qceiling_resp_le y 0 E') as F0.
    pose proof (Qle_ceiling y) as F1.
    assert (inject_Z (-32768) <= inject_Z (Qceiling y)) as F2
      by (eapply Qle_trans; [exact H1| exact F1]).
    rewrite <- Zle_Qle in F2. rewrite (eq_refl : Qceiling 0 = 0%Z) in F0. lia.
Qed.

Lemma pcm_to_float_scaled (s : Z) :
  pcm_to_float s * inject_Z 32768 = (s * 32768 # 32768).
Proof.
  unfold pcm_to_float, Qdiv, Qmult, Qinv, inject_Z. simpl.
  rewrite Z.mul_1_r. reflexivity.
Qed.

Lemma Qtrunc_exact (s : Z) : Qtrunc (s * 32768 # 32768) = s.
Proof.
  unfold Qtrunc, Qle_bool, Qfloor, Qceiling, Qopp. simpl.
  destruct (Z.leb_spec 0 (s * 32768 * 1)).
  - rewrite Z.div_mul by lia. reflexivity.
  - replace (- (s * 32768))%Z with ((- s) * 32768)%Z by ring.
    rewrite Z.div_mul by lia. lia.
Qed.

End PcmFacts.

(* ================================================================== *)
(** * Properties of the playback scheduler *)
Module SchedFacts.
Import Codec VoiceCall Props.
Open Scope Q_scope.

Lemma js_max_ge_l (a b : Q) : a <= js_max a b.
Proof.
  unfold js_max. destruct (Qle_bool a b) eqn:E; [apply Qle_bool_iff; exact E|].
  apply Qle_refl.
Qed.

Lemma js_max_ge_r (a b : Q) : b <= js_max a b.
Proof.
  unfold js_max. destruct (Qle_bool a b) eqn:E; [apply Qle_refl|].
  apply Qlt_le_weak, Qnot_le_lt. intros C. apply Qle_bool_iff in C. congruence.
Qed.

Lemma js_max_of_le (a b : Q) : a <= b -> js_max a b = b.
Proof. intros H. unfold js_max. apply Qle_bool_iff in H. rewrite H. reflexivity. Qed.

Lemma decodeAudioData_duration (d : list Z) (buf : AudioBuffer) :
  decodeAudioData d 24000 = Some buf -> 0 <= buf_duration buf.
Proof.
  unfold decodeAudioData. destruct (int16_of_bytes d) as [vs|]; [|discriminate].
  destruct (Z.of_nat (length vs) =? 0)%Z; [discriminate|].
  intros H. injection H as <-. simpl.
  apply Qle_shift_div_l; [reflexivity|].
  rewrite Qmult_0_l. change (inject_Z 0 <= inject_Z (Z.of_nat (length vs))).
  rewrite <- Zle_Qle. lia.
Qed.

Lemma decode_chunk_duration (d : list Z) (buf : AudioBuffer) :
  decode_chunk d = Some buf -> 0 <= buf_duration buf.
Proof.
  unfold decode_chunk. destruct (decode d); [|discriminate].
  apply decodeAudioData_duration.
Qed.

Lemma decode_chunk_nil : decode_chunk [] = None.
Proof. reflexivity. Qed.

(** The audio part of [onmessage] on a payload that decodes. *)
Lemma onmessage_chunk (now : Q) (rnd : nat -> Q) (d : list Z) (b : bool)
      (buf : AudioBuffer) (s : VC) :
  decode_chunk d = Some buf ->
  onmessage now rnd (mkMessage (Some d) b) s
  = interrupt_branch (mkMessage (Some d) b)
      (schedule rnd buf (advance_cursor now (set_speaking true s))).
Proof.
  intros H. destruct d as [|c d]; [rewrite decode_chunk_nil in H; discriminate|].
  unfold onmessage. cbn [audioData]. rewrite H. reflexivity.
Qed.

Lemma run_cons (e : Event) (evs : list Event) (s : VC) :
  run (e :: evs) s = run evs (step e s).
Proof. reflexivity. Qed.

(** One audio-only message whose payload decodes. *)
Lemma step_audio (rnd : nat -> Q) (c : Q * list Z) (s : VC) :
  decodable c = true ->
  let s' := step (Msg (fst c) rnd (mkMessage (Some (snd c)) false)) s in
  nextStartTime (sched s') = js_max (nextStartTime (sched s)) (fst c) + dur c /\
  started (sched s') = started (sched s)
    ++ [(nextId (sched s), js_max (nextStartTime (sched s)) (fst c), dur c)] /\
  sources (sched s') = sources (sched s) ++ [nextId (sched s)] /\
  nextId (sched s') = S (nextId (sched s)).
Proof.
  unfold decodable, dur. destruct (decode_chunk (snd c)) as [buf|] eqn:E;
    [|discriminate].
  intros _. cbn [step]. rewrite (onmessage_chunk _ _ _ _ buf _ E).
  repeat split.
Qed.

Lemma run_audio (rnd : nat -> Q) (cs : list (Q * list Z)) (s : VC) :
  Forall (fun c => decodable c = true) cs ->
  exists new,
    started (sched (run (audio_events rnd cs) s)) = started (sched s) ++ new /\
    map start_of new = sched_spec (nextStartTime (sched s)) cs /\
    map dur_of new = map dur cs.
Proof.
  intros H. revert s. induction H as [|c cs Hc Hcs IH]; intros s.
  - exists []. rewrite app_nil_r. repeat split.
  - cbn [audio_events map]. rewrite run_cons.
    destruct (step_audio rnd c s Hc) as [Hn [Hst _]].
    destruct (IH (step (Msg (fst c) rnd (mkMessage (Some (snd c)) false)) s))
      as [new [H1 [H2 H3]]].
    eexists (_ :: new). split; [|split].
    + unfold audio_events in H1. rewrite H1, Hst, <- app_assoc. reflexivity.
    + cbn [map sched_spec]. rewrite H2, Hn. reflexivity.
    + cbn [map]. rewrite H3. reflexivity.
Qed.

Lemma chained_of_spec (cs : list (Q * list Z)) :
  forall t new, map start_of new = sched_spec t cs -> map dur_of new = map dur cs ->
  chained t new.
Proof.
  induction cs as [|c cs IH]; intros t [|e new] H1 H2; try discriminate; simpl.
  - exact I.
  - injection H1 as E1 E2. injection H2 as D1 D2.
    split.
    + rewrite E1. apply js_max_ge_l.
    + apply IH; [|exact D2]. rewrite E2, E1, D1. reflexivity.
Qed.

Lemma js_max_compat (a a' b : Q) : a == a' -> js_max a b == js_max a' b.
Proof.
  intros E. unfold js_max.
  destruct (Qle_bool a b) eqn:E1, (Qle_bool a' b) eqn:E2; try reflexivity.
  - apply Qle_bool_iff in E1. rewrite E in E1. apply Qle_bool_iff in E1. congruence.
  - apply Qle_bool_iff in E2. rewrite <- E in E2. apply Qle_bool_iff in E2. congruence.
  - exact E.
Qed.

Lemma js_max_le_eq (t x : Q) : x <= t -> js_max t x == t.
Proof.
  intros H. unfold js_max. destruct (Qle_bool t x) eqn:E; [|reflexivity].
  apply Qle_bool_iff in E. apply Qle_antisym; assumption.
Qed.

Lemma early_spec (cs : list (Q * list Z)) :
  forall t t', t == t' -> early t' cs ->
  Forall2 Qeq (sched_spec t cs) (prefix_starts t' (map dur cs)).
Proof.
  induction cs as [|c cs IH]; intros t t' Ht He; simpl; [constructor|].
  destruct He as [H1 H2].
  assert (M : js_max t (fst c) == t').
  { rewrite <- Ht. apply js_max_le_eq. rewrite Ht. exact H1. }
  constructor; [exact M|].
  apply IH; [|exact H2]. rewrite M. reflexivity.
Qed.

Lemma early_from_spec (cs : list (Q * list Z)) (t t0 : Q) :
  t <= t0 -> early_from t0 cs ->
  Forall2 Qeq (sched_spec t cs) (prefix_starts t0 (map dur cs)).
Proof.
  destruct cs as [|c cs]; simpl; intros Ht He; [constructor|].
  destruct He as [H1 H2].
  assert (M : js_max t (fst c) == t0).
  { unfold js_max. destruct (Qle_bool t (fst c)) eqn:E; [exact H1|].
    exfalso. assert (t <= fst c) as C by (rewrite H1; exact Ht).
    apply Qle_bool_iff in C. congruence. }
  constructor; [exact M|].
  apply early_spec; [|exact H2]. rewrite M. reflexivity.
Qed.

(** The shape of [onmessage] on an interrupted message whose payload, if
    any, decodes: the flush runs on the state after the audio part. *)
Lemma onmessage_interrupted (now : Q) (rnd : nat -> Q) (a : option (list Z)) (s : VC) :
  audio_ok a = true ->
  exists s1,
    (s1 = s \/ exists buf, s1 = schedule rnd buf (advance_cursor now (set_speaking true s))) /\
    onmessage now rnd (mkMessage a true) s = interrupt_branch (mkMessage a true) s1.
Proof.
  intros Ha. destruct a as [[|c d]|]; simpl in Ha.
  - exists s. split; [left; reflexivity|reflexivity].
  - destruct (decode_chunk (c :: d)) as [buf|] eqn:E; [|discriminate].
    exists (schedule rnd buf (advance_cursor now (set_speaking true s))).
    split; [right; exists buf; reflexivity|].
    apply onmessage_chunk. exact E.
  - exists s. split; [left; reflexivity|reflexivity].
Qed.

Lemma cursor_audio_step (now : Q) (rnd : nat -> Q) (d : list Z) (s : VC) :
  nextStartTime (sched s) <=
  nextStartTime (sched (onmessage now rnd (mkMessage (Some d) false) s)).
Proof.
  destruct d as [|c d]; [apply Qle_refl|].
  unfold onmessage. cbn [audioData].
  destruct (decode_chunk (c :: d)) as [buf|] eqn:E; simpl.
  - pose proof (decode_chunk_duration _ _ E).
    pose proof (js_max_ge_l (nextStartTime (sched s)) now). lra.
  - apply js_max_ge_l.
Qed.

Lemma onmessage_wave (now : Q) (rnd : nat -> Q) (m : Message) (s : VC) :
  waveformData (onmessage now rnd m s) = waveformData s \/
  waveformData (onmessage now rnd m s) = regen rnd.
Proof.
  destruct m as [[[|c d]|] b]; unfold onmessage; cbn [audioData];
    try (destruct b; left; reflexivity).
  destruct (decode_chunk (c :: d)); [right|left]; destruct b; reflexivity.
Qed.

Lemma Forall2_Qeq_trans (l1 l2 l3 : list Q) :
  Forall2 Qeq l1 l2 -> Forall2 Qeq l2 l3 -> Forall2 Qeq l1 l3.
Proof.
  intros H. revert l3. induction H as [|x y l1 l2 Hxy H IH]; intros l3 H3;
    inversion H3; subst; constructor.
  - rewrite Hxy. assumption.
  - apply IH. assumption.
Qed.

Close Scope Q_scope.
End SchedFacts.

(* ================================================================== *)
(** * Properties of [formatDuration] *)
Module FormatFacts.
Import String Ascii Format.
Open Scope Z_scope.

Lemma decimal_value_acc_app (acc : Z) (s1 s2 : string) :
  decimal_value_acc acc (append s1 s2) =
  match decimal_value_acc acc s1 with
  | Some v => decimal_value_acc v s2
  | None => None
  end.
Proof.
  revert acc. induction s1 as [|c s1 IH]; intros acc; simpl; [reflexivity|].
  destruct ((0 <=? _) && (_ <=? 9))%bool; [apply IH|reflexivity].
Qed.

Lemma digit_char_code (d : Z) :
  0 <= d <= 9 -> Z.of_nat (nat_of_ascii (digit_char d)) - 48 = d.
Proof.
  intros Hd. unfold digit_char.
  rewrite nat_ascii_embedding by lia. lia.
Qed.

Lemma decimal_value_digit (acc d : Z) :
  0 <= d <= 9 ->
  decimal_value_acc acc (String (digit_char d) EmptyString) = Some (acc * 10 + d).
Proof.
  intros Hd. remember (digit_char d) as c eqn:Ec. simpl.
  rewrite Ec, digit_char_code by exact Hd.
  destruct (Z.leb_spec 0 d), (Z.leb_spec d 9); try lia. reflexivity.
Qed.

Lemma digit_char_not_zero (d : Z) : 1 <= d <= 9 -> digit_char d <> "0"%char.
Proof.
  intros Hd E. apply (f_equal (fun c => Z.of_nat (nat_of_ascii c) - 48)) in E.
  rewrite digit_char_code in E by lia. simpl in E. lia.
Qed.

Lemma digits_fuel_correct (f : nat) :
  forall n, 0 <= n < 2 ^ Z.of_nat (S f) ->
  decimal_value_acc 0 (digits_fuel (S f) n) = Some n /\
  (1 <= n -> exists c r, digits_fuel (S f) n = String c r /\ c <> "0"%char) /\
  (n = 0 -> digits_fuel (S f) n = String "0" EmptyString).
Proof.
  induction f as [|f IH]; intros n Hn;
    rewrite Nat2Z.inj_succ, Z.pow_succ_r in Hn by lia.
  - simpl in Hn. simpl digits_fuel. destruct (Z.ltb_spec n 10); [|lia].
    split; [|split].
    + rewrite decimal_value_digit by lia. reflexivity.
    + intros Hn1. do 2 eexists. split; [reflexivity|]. apply digit_char_not_zero. lia.
    + intros ->. reflexivity.
  - change (digits_fuel (S (S f)) n) with
      (if n <? 10 then String (digit_char n) EmptyString
       else append (digits_fuel (S f) (n / 10))
                   (String (digit_char (n mod 10)) EmptyString)).
    destruct (Z.ltb_spec n 10).
    + split; [|split].
      * rewrite decimal_value_digit by lia. reflexivity.
      * intros Hn1. do 2 eexists. split; [reflexivity|]. apply digit_char_not_zero. lia.
      * intros ->. reflexivity.
    + assert (Hq : 0 <= n / 10 < 2 ^ Z.of_nat (S f)).
      { split; [apply Z.div_pos; lia|]. apply Z.div_lt_upper_bound; lia. }
      destruct (IH (n / 10) Hq) as [V [Hh _]].
      split; [|split].
      * rewrite decimal_value_acc_app, V, decimal_value_digit
          by (pose proof (Z.mod_pos_bound n 10); lia).
        f_equal. pose proof (Z.div_mod n 10). lia.
      * intros _. destruct Hh as [c [r [E Hc]]].
        { apply Z.div_le_lower_bound; lia. }
        rewrite E. exists c, (append r (String (digit_char (n mod 10)) EmptyString)).
        split; [reflexivity|exact Hc].
      * intros. lia.
Qed.

Lemma digits_correct (n : Z) :
  0 <= n ->
  decimal_value_acc 0 (digits n) = Some n /\
  (1 <= n -> exists c r, digits n = String c r /\ c <> "0"%char) /\
  (n = 0 -> digits n = String "0" EmptyString).
Proof.
  intros Hn. unfold digits. apply digits_fuel_correct. split; [exact Hn|].
  rewrite Nat2Z.inj_succ, Z2Nat.id by apply Z.log2_nonneg.
  destruct (Z.eq_dec n 0) as [->|Hn0]; [reflexivity|].
  apply Z.log2_spec. lia.
Qed.

Lemma decimal_value_fill (k : nat) (s : string) :
  decimal_value_acc 0 (append (fill k "0") s) = decimal_value_acc 0 s.
Proof. induction k as [|k IH]; simpl; [reflexivity|]. exact IH. Qed.

Lemma string_length_append (a b : string) :
  length (append a b) = (length a + length b)%nat.
Proof. induction a as [|c a IH]; simpl; congruence. Qed.

Lemma length_fill (k : nat) (c : ascii) : length (fill k c) = k.
Proof. induction k; simpl; congruence. Qed.

Lemma padStart_digits (n : Z) :
  0 <= n -> padded_decimal 2 (padStart 2 "0" (digits n)) n.
Proof.
  intros Hn. destruct (digits_correct n Hn) as [V [Hh H0]].
  unfold padStart, padded_decimal.
  destruct (Nat.leb_spec 2 (length (digits n))) as [L|L].
  - split; [exact V|split; [exact L|]]. intros _.
    apply Hh. destruct (Z.eq_dec n 0) as [->|]; [|lia].
    rewrite H0 in L by reflexivity. simpl in L. lia.
  - split; [|split].
    + rewrite decimal_value_fill. exact V.
    + rewrite string_length_append, length_fill. lia.
    + rewrite string_length_append, length_fill. lia.
Qed.

Close Scope Z_scope.
End FormatFacts.

(* ================================================================== *)
(** * Properties of the waveform feed *)
Module WaveFacts.
Import VoiceCall Props SchedFacts.
Open Scope Q_scope.

Lemma wave_inv_init : wave_inv (waveformData init).
Proof.
  split; [reflexivity|]. change (waveformData init) with (repeat 2 40).
  apply Forall_forall. intros v Hv. apply repeat_spec in Hv. subst v.
  split; discriminate.
Qed.

Lemma regen_inv (rnd : nat -> Q) :
  (forall i, 0 <= rnd i < 1) -> wave_inv (regen rnd).
Proof.
  intros Hr. unfold regen. split.
  - rewrite length_map, length_seq. reflexivity.
  - apply Forall_map, Forall_forall. intros i _.
    destruct (Hr i). split; lra.
Qed.

Lemma decay_inv (w : list Q) : wave_inv w -> wave_inv (decay w).
Proof.
  intros [Hl Hw]. unfold decay. split.
  - rewrite length_map. exact Hl.
  - apply Forall_map. eapply Forall_impl; [|exact Hw].
    intros v [H1 H2]. unfold js_max.
    destruct (Qle_bool 4 (v * (9 # 10))) eqn:E.
    + apply Qle_bool_iff in E. split; lra.
    + split; discriminate.
Qed.

Lemma wave_inv_ok (w : list Q) : wave_inv w -> wave_ok w.
Proof.
  intros [Hl Hw]. split; [exact Hl|].
  eapply Forall_impl; [|exact Hw]. intros v [H1 H2].
  split; [split; lra|]. intros E. lra.
Qed.

Lemma step_wave_inv (e : Event) (s : VC) :
  match e with Msg _ rnd _ => forall i, 0 <= rnd i < 1 | _ => True end ->
  wave_inv (waveformData s) -> wave_inv (waveformData (step e s)).
Proof.
  intros He Hs. destruct e; simpl; try exact Hs.
  - destruct micGranted; exact Hs.
  - destruct (startMuted s); exact Hs.
  - destruct (onmessage_wave now rnd m s) as [E|E]; rewrite E;
      [exact Hs|apply regen_inv, He].
  - unfold on_ended. destruct (remove _ _ _); exact Hs.
  - destruct (processor s) as [[]|]; try exact Hs.
    unfold onaudioprocess. destruct (Codec.encode _); exact Hs.
  - destruct (isModelSpeaking s); [exact Hs|apply decay_inv, Hs].
Qed.

Lemma run_wave_inv (evs : list Event) :
  rnd_ok evs -> forall s, wave_inv (waveformData s) -> wave_inv (waveformData (run evs s)).
Proof.
  induction 1 as [|e evs He Hevs IH]; intros s Hs; [exact Hs|].
  rewrite run_cons. apply IH, step_wave_inv; assumption.
Qed.

Close Scope Q_scope.
End WaveFacts.

(* ================================================================== *)
(** * The claims *)
Module Claims.
Import Codec VoiceCall Props CodecFacts PcmFacts SchedFacts WaveFacts.
Open Scope Q_scope.

(** Claim C1 (mute gating).  The capture callback gates on the [isMuted]
    binding captured when [handleStartCall] ran, not on the current state:
    after the call is connected unmuted, pressing the mute button sets
    [isMuted] but the next captured frame (here the single sample 0.5) is
    still converted, encoded and sent. *)
Theorem mute_toggle_not_seen_by_capture :
  let s := run [StartCall true; Open; ToggleMute; AudioProcess [1 # 2]] init in
  isMuted s = true /\ sent s = [[65; 69; 65; 61]%Z] /\
  decode [65; 69; 65; 61]%Z = Some (bytes_of_int16 [float_to_pcm (1 # 2)]).
Proof. vm_compute. repeat split. Qed.

(** Claim C2 (counterexample).  The stored sample is not the clamped and
    rounded value: 1.5 is stored as -16384 (wrap-around), while
    [round(clamp(1.5, -1, 1) * 32768)] cast to 16 bits is -32768. *)
Lemma float_to_pcm_wraps_out_of_range :
  float_to_pcm (3 # 2) = (-16384)%Z /\ float_to_pcm (3 # 2) <> float_to_pcm_spec (3 # 2).
Proof. vm_compute. split; [reflexivity|discriminate]. Qed.

(** Claim C2 (amended).  A captured sample [x] is stored as
    [ToInt16(x * 32768)]: truncation toward zero, then reduction modulo
    2^16, with no clamping.  For [x] in [-1, 1) this is [trunc(x * 32768)],
    inside [-32768, 32767], with no wrap-around. *)
Theorem float_to_pcm_truncates (x : Q) :
  float_to_pcm x = wrap16 (Qtrunc (x * inject_Z 32768)) /\
  (-1 <= x < 1 ->
   float_to_pcm x = Qtrunc (x * inject_Z 32768) /\
   (-32768 <= float_to_pcm x <= 32767)%Z).
Proof.
  split; [reflexivity|]. intros [H1 H2].
  change (inject_Z 32768) with 32768.
  assert (B : (-32768 <= Qtrunc (x * 32768) <= 32767)%Z)
    by (apply Qtrunc_bounds; lra).
  unfold float_to_pcm, ToInt16. change (inject_Z 32768) with 32768.
  rewrite wrap16_small by exact B. split; [reflexivity|exact B].
Qed.

Lemma float_to_pcm_truncates_witness :
  (-1 <= 1 # 2 < 1) /\ float_to_pcm (1 # 2) = 16384%Z.
Proof.
  assert (H : -1 <= 1 # 2 < 1) by (split; lra).
  split; [exact H|].
  destruct (proj2 (float_to_pcm_truncates (1 # 2)) H) as [E _].
  rewrite E. vm_compute. reflexivity.
Defined.

(** Claim C6.  [decode(encode(x)) = x] for every byte sequence, and
    [encode] of the empty input is the empty string. *)
Theorem codec_roundtrip (x : list Z) (Hx : Forall is_byte x) :
  (exists e, encode x = Some e /\ decode e = Some x) /\ encode [] = Some [].
Proof.
  split; [|reflexivity].
  assert (Hm : map fromCharCode x = x).
  { apply (map_id_on _ is_byte); [|exact Hx].
    intros b Hb. unfold fromCharCode, is_byte in *. apply Z.mod_small. lia. }
  unfold encode, btoa. rewrite Hm.
  replace (forallb (fun c => (c <=? 255)%Z) x) with true.
  - exists (btoa_groups x). split; [reflexivity|].
    unfold decode. rewrite atob_btoa_groups by exact Hx.
    f_equal. apply (map_id_on _ is_byte); [|exact Hx].
    intros b Hb. unfold is_byte in Hb. apply Z.mod_small. lia.
  - symmetry. apply forallb_forall. intros b Hb.
    rewrite Forall_forall in Hx. specialize (Hx b Hb). unfold is_byte in Hx.
    apply Z.leb_le. lia.
Qed.

Lemma codec_roundtrip_witness :
  Forall is_byte [0; 255; 16; 64; 200]%Z /\
  (exists e, encode [0; 255; 16; 64; 200]%Z = Some e /\ decode e = Some [0; 255; 16; 64; 200]%Z).
Proof.
  assert (H : Forall is_byte [0; 255; 16; 64; 200]%Z)
    by (repeat constructor; unfold is_byte; lia).
  split; [exact H|]. exact (proj1 (codec_roundtrip _ H)).
Defined.

(** Claim C7.  Converting a 16-bit sample to float ([s / 32768]) and back
    ([ToInt16(x * 32768)]) gives [s] exactly, for every [s] in
    [-32768, 32767]. *)
Theorem pcm_float_roundtrip (s : Z) (Hs : (-32768 <= s <= 32767)%Z) :
  float_to_pcm (pcm_to_float s) = s.
Proof.
  unfold float_to_pcm, ToInt16. rewrite pcm_to_float_scaled, Qtrunc_exact.
  apply wrap16_small. exact Hs.
Qed.

Lemma pcm_float_roundtrip_witness :
  (-32768 <= -32768 <= 32767)%Z /\ float_to_pcm (pcm_to_float (-32768)) = (-32768)%Z /\
  (-32768 <= 32767 <= 32767)%Z /\ float_to_pcm (pcm_to_float 32767) = 32767%Z.
Proof.
  assert (H1 : (-32768 <= -32768 <= 32767)%Z) by lia.
  assert (H2 : (-32768 <= 32767 <= 32767)%Z) by lia.
  split; [exact H1|split; [exact (pcm_float_roundtrip _ H1)|]].
  split; [exact H2|exact (pcm_float_roundtrip _ H2)].
Defined.

(** Claim C3.  Over a run of audio messages whose payloads decode, each
    message appends one [source.start(t)] with [t = max(cursor, now)] and
    moves the cursor to [t + duration]; hence every start is at or after the
    end of the previous chunk, and when the first chunk arrives with the
    clock at [t0] (cursor not beyond [t0]) and each later one before the
    previous ends, chunk [i] starts at [t0 + d1 + ... + d(i-1)]. *)
Theorem enqueue_schedule (rnd : nat -> Q) (s : VC) (cs : list (Q * list Z)) (t0 : Q) :
  Forall (fun c => decodable c = true) cs ->
  exists new,
    started (sched (run (audio_events rnd cs) s)) = started (sched s) ++ new /\
    map start_of new = sched_spec (nextStartTime (sched s)) cs /\
    map dur_of new = map dur cs /\
    chained (nextStartTime (sched s)) new /\
    (nextStartTime (sched s) <= t0 -> early_from t0 cs ->
     Forall2 Qeq (map start_of new) (prefix_starts t0 (map dur cs))).
Proof.
  intros H. destruct (run_audio rnd cs s H) as [new [H1 [H2 H3]]].
  exists new. split; [exact H1|split; [exact H2|split; [exact H3|split]]].
  - apply (chained_of_spec cs); assumption.
  - intros Ht He. rewrite H2. apply early_from_spec; assumption.
Qed.

(** Three chunks of 0.5 s (24000 zero bytes each) arriving at clock 2, 2.1
    and 2.2: they start at 2, 2.5 and 3, a span of exactly 1.5 s. *)
Lemma enqueue_schedule_witness :
  let cs := [(2, repeat 65%Z (Z.to_nat 32000)); (21 # 10, repeat 65%Z (Z.to_nat 32000));
             (22 # 10, repeat 65%Z (Z.to_nat 32000))] in
  Forall (fun c => decodable c = true) cs /\
  exists new,
    started (sched (run (audio_events (fun _ => 0) cs) init)) = new /\
    Forall2 Qeq (map start_of new) [2; 5 # 2; 3] /\
    Forall2 Qeq (map dur_of new) [1 # 2; 1 # 2; 1 # 2].
Proof.
  intros cs.
  assert (Hd : Forall (fun c => decodable c = true) cs)
    by (repeat constructor; vm_compute; reflexivity).
  split; [exact Hd|].
  destruct (enqueue_schedule (fun _ => 0) init cs 2 Hd) as [new [H1 [_ [H3 [_ H5]]]]].
  exists new. split; [exact H1|split].
  - assert (Hs : Forall2 Qeq (map start_of new) (prefix_starts 2 (map dur cs))).
    { apply H5.
      - vm_compute. discriminate.
      - vm_compute. repeat split; discriminate. }
    apply (Forall2_Qeq_trans _ _ _ Hs). vm_compute. repeat constructor.
  - rewrite H3. vm_compute. repeat constructor.
Defined.

(** Claim C4.  After an interrupted message (whose audio payload, if any,
    decodes) the active set is empty, the cursor is 0, every source that
    was active and the source started by the message itself are stopped,
    and a chunk enqueued next at clock [now'] starts at [max(0, now')],
    never before [now'] (exactly at [now'] for a non-negative clock). *)
Theorem flush_then_enqueue (now : Q) (rnd : nat -> Q) (a : option (list Z)) (s : VC) :
  audio_ok a = true ->
  let s' := onmessage now rnd (mkMessage a true) s in
  sources (sched s') = [] /\ nextStartTime (sched s') = 0 /\
  (forall id, In id (sources (sched s)) -> In id (stopped (sched s'))) /\
  (forall e, In e (started (sched s')) -> ~ In e (started (sched s)) ->
     In (fst (fst e)) (stopped (sched s'))) /\
  (forall now' rnd' d buf, decode_chunk d = Some buf ->
     exists st,
       started (sched (onmessage now' rnd' (mkMessage (Some d) false) s'))
         = started (sched s') ++ [(nextId (sched s'), st, buf_duration buf)] /\
       now' <= st /\ (0 <= now' -> st == now')).
Proof.
  intros Ha s'. subst s'.
  destruct (onmessage_interrupted now rnd a s Ha) as [s1 [Hs1 E]]. rewrite E.
  split; [reflexivity|split; [reflexivity|split; [|split]]].
  - intros id Hid. simpl. apply in_or_app. right.
    destruct Hs1 as [->|[buf ->]]; [exact Hid|]. simpl. apply in_or_app. left. exact Hid.
  - intros e He Hn. simpl in *. apply in_or_app. right.
    destruct Hs1 as [->|[buf ->]]; [contradiction|].
    simpl in He |- *. apply in_app_or in He as [He|He]; [contradiction|].
    destruct He as [<-|[]]. simpl. apply in_or_app. right. left. reflexivity.
  - intros now' rnd' d buf Hd.
    rewrite (onmessage_chunk _ _ _ _ buf _ Hd).
    exists (js_max 0 now'). split; [reflexivity|split].
    + apply js_max_ge_r.
    + intros H0. rewrite js_max_of_le by exact H0. reflexivity.
Qed.

Lemma flush_then_enqueue_witness :
  audio_ok None = true /\
  sources (sched (onmessage 5 (fun _ => 0) (mkMessage None true)
     (onmessage 1 (fun _ => 0) (mkMessage (Some (repeat 65%Z 8)) false) init))) = [].
Proof.
  split; [reflexivity|].
  exact (proj1 (flush_then_enqueue 5 (fun _ => 0) None _ eq_refl)).
Defined.

(** Claim C5.  An interrupted message does not always empty the active
    set.  During an active call with one chunk playing, a message that is
    flagged [interrupted] and carries the payload "A" (which [atob]
    rejects) throws at line 130, after lines 127 and 129 ran and before
    the flush of lines 143-148.  [permissionState] stays [granted], but the
    playing source stays in the set and is never stopped. *)
Theorem interrupted_undecodable_skips_flush :
  let s0 := run [StartCall true; Open;
                 Msg 1 (fun _ => 0) (mkMessage (Some (repeat 65%Z 8)) false)] init in
  let s1 := step (Msg 2 (fun _ => 0) (mkMessage (Some [65%Z]) true)) s0 in
  permissionState s0 = granted /\ sources (sched s0) = [0%nat] /\
  decode [65%Z] = None /\
  permissionState s1 = granted /\ sources (sched s1) = [0%nat] /\
  stopped (sched s1) = [] /\ isModelSpeaking s1 = true.
Proof. vm_compute. repeat split. Qed.

(** Claim C8.  No event moves the cursor [nextStartTime] backwards, except
    the flush of an interrupted message, which sets it to 0. *)
Theorem cursor_monotone (e : Event) (s : VC) :
  nextStartTime (sched s) <= nextStartTime (sched (step e s)) \/
  (exists now rnd m, e = Msg now rnd m /\ interrupted m = true /\
                     nextStartTime (sched (step e s)) = 0).
Proof.
  destruct e; cbn [step].
  - destruct micGranted; left; apply Qle_refl.
  - destruct (startMuted s); left; apply Qle_refl.
  - destruct m as [a [|]].
    + destruct (audio_ok a) eqn:Ha.
      * right. exists now, rnd, (mkMessage a true). split; [reflexivity|split; [reflexivity|]].
        destruct (onmessage_interrupted now rnd a s Ha) as [s1 [_ E]].
        rewrite E. reflexivity.
      * left. destruct a as [[|c d]|]; try discriminate. simpl in Ha.
        unfold onmessage. cbn [audioData].
        destruct (decode_chunk (c :: d)); [discriminate|]. apply js_max_ge_l.
    + left. destruct a as [d|]; [apply cursor_audio_step|apply Qle_refl].
  - left. unfold on_ended. destruct (remove _ _ _); apply Qle_refl.
  - left. destruct (processor s) as [[]|]; try apply Qle_refl.
    unfold onaudioprocess. destruct (encode _); apply Qle_refl.
  - left. apply Qle_refl.
  - left. apply Qle_refl.
  - left. destruct (isModelSpeaking s); apply Qle_refl.
  - left. apply Qle_refl.
  - left. apply Qle_refl.
Qed.

(** Claim C9.  Along any trace from the initial state (with [Math.random()]
    draws in [0, 1)), the waveform has 40 values, each in [0, 100] and never
    zero, and an idle tick while not speaking maps each value [v] to
    [max(4, v * 0.9)]. *)
Theorem waveform_bounded (evs : list Event) :
  rnd_ok evs ->
  let s := run evs init in
  wave_ok (waveformData s) /\
  (isModelSpeaking s = false ->
   waveformData (step WaveTick s) = map (fun v => js_max 4 (v * (9 # 10))) (waveformData s)).
Proof.
  intros H s. split.
  - apply wave_inv_ok, run_wave_inv; [exact H|exact wave_inv_init].
  - intros Hsp. simpl. rewrite Hsp. reflexivity.
Qed.

Lemma waveform_bounded_witness :
  let evs := [StartCall true; Open;
              Msg 1 (fun _ => 1 # 2) (mkMessage (Some (repeat 65%Z 8)) false);
              Ended 0%nat; WaveTick; WaveTick] in
  rnd_ok evs /\ wave_ok (waveformData (run evs init)).
Proof.
  intros evs.
  assert (H : rnd_ok evs)
    by (repeat constructor; intros; lra).
  split; [exact H|exact (proj1 (waveform_bounded evs H))].
Defined.

Import String Ascii.

(** Claim C10.  For [s >= 0], [formatDuration s] is [floor(s / 60)] in
    decimal left-padded with '0' to at least two characters, then ':', then
    [s mod 60] likewise padded; minutes of 100 or more keep all their digits. *)
Theorem duration_format (s : Z) (Hs : (0 <= s)%Z) :
  exists mm ss,
    Format.formatDuration s = String.append mm (String.String ":"%char ss) /\
    Format.padded_decimal 2 mm (s / 60) /\ Format.padded_decimal 2 ss (s mod 60).
Proof.
  exists (Format.padStart 2 "0"%char (Format.digits (s / 60))),
         (Format.padStart 2 "0"%char (Format.digits (s mod 60))).
  split; [|split; apply FormatFacts.padStart_digits].
  - unfold Format.formatDuration, Format.toString.
    rewrite Z.rem_mod_nonneg by lia.
    destruct (Z.ltb_spec (s / 60) 0) as [H|_];
      [pose proof (Z.div_pos s 60 Hs ltac:(lia)); lia|].
    destruct (Z.ltb_spec (s mod 60) 0) as [H|_];
      [pose proof (Z.mod_pos_bound s 60 ltac:(lia)); lia|].
    reflexivity.
  - apply Z.div_pos; lia.
  - apply Z.mod_pos_bound. lia.
Qed.

Lemma duration_format_witness :
  (0 <= 3661)%Z /\ Format.formatDuration 3661 = "61:01"%string /\
  exists mm ss,
    Format.formatDuration 3661 = String.append mm (String.String ":"%char ss) /\
    Format.padded_decimal 2 mm 61 /\ Format.padded_decimal 2 ss 1.
Proof.
  assert (H : (0 <= 3661)%Z) by lia.
  split; [exact H|split; [vm_compute; reflexivity|]].
  exact (duration_format 3661 H).
Defined.

Close Scope Q_scope.
End Claims.


(* ================================================================== *)
(** * Further facts: codec and sample path *)
Module MoreCodecFacts.
Import Codec Props CodecFacts.
Open Scope Z_scope.

Lemma btoa_groups_length (l : list Z) :
  length (btoa_groups l) = (4 * ((length l + 2) / 3))%nat.
Proof.
  induction l using list_ind3; try reflexivity.
  cbn [btoa_groups]. rewrite length_app, IHl. cbn [length].
  replace (S (S (S (length l))) + 2)%nat with ((length l + 2) + 1 * 3)%nat by lia.
  rewrite Nat.div_add by lia. lia.
Qed.

Lemma encode_bytes (l : list Z) : Forall is_byte l -> encode l = Some (btoa_groups l).
Proof.
  intros Hl.
  assert (Hm : map fromCharCode l = l).
  { apply (map_id_on _ is_byte); [|exact Hl].
    intros b Hb. unfold fromCharCode, is_byte in *. apply Z.mod_small. lia. }
  unfold encode, btoa. rewrite Hm.
  replace (forallb (fun c => (c <=? 255)%Z) l) with true; [reflexivity|].
  symmetry. apply forallb_forall. intros b Hb.
  rewrite Forall_forall in Hl. specialize (Hl b Hb). unfold is_byte in Hl.
  apply Z.leb_le. lia.
Qed.

Lemma decode_btoa_groups (l : list Z) : Forall is_byte l -> decode (btoa_groups l) = Some l.
Proof.
  intros Hl. unfold decode. rewrite atob_btoa_groups by exact Hl.
  f_equal. apply (map_id_on _ is_byte); [|exact Hl].
  intros b Hb. unfold is_byte in Hb. apply Z.mod_small. lia.
Qed.

Lemma pad_cases (l : list Z) : pad_of l = [] \/ pad_of l = [61] \/ pad_of l = [61; 61].
Proof. induction l using list_ind3; simpl; auto. Qed.

Lemma strip_pad_suffix (d : list Z) :
  exists t, d = strip_pad d ++ t /\ Forall (fun x => x = 61) t.
Proof.
  unfold strip_pad. destruct (rev d) as [|a r] eqn:E.
  - exists []. rewrite app_nil_r. split; [reflexivity|constructor].
  - assert (Hd : d = rev r ++ [a]) by (rewrite <- (rev_involutive d), E; reflexivity).
    destruct (Z.eqb_spec a 61) as [Ha|Ha].
    + destruct r as [|b r'].
      * exists [a]. split; [exact Hd|repeat constructor; exact Ha].
      * destruct (Z.eqb_spec b 61) as [Hb|Hb].
        -- exists [b; a]. split; [|repeat constructor; assumption].
           rewrite Hd. simpl. rewrite <- app_assoc. reflexivity.
        -- exists [a]. split; [exact Hd|repeat constructor; exact Ha].
    + exists []. rewrite app_nil_r. split; [reflexivity|constructor].
Qed.

Lemma sextets_of_bad (d : list Z) (c : Z) :
  In c d -> b64index c = None -> sextets_of d = None.
Proof.
  induction d as [|x d IH]; simpl; [contradiction|]. intros [<-|Hin] Hc.
  - rewrite Hc. reflexivity.
  - rewrite (IH Hin Hc). destruct (b64index x); reflexivity.
Qed.

Lemma list_ind2 (P : list Z -> Prop) :
  P [] -> (forall a, P [a]) -> (forall a b r, P r -> P (a :: b :: r)) -> forall l, P l.
Proof.
  intros H0 H1 H2. fix IH 1. intros [|a [|b r]]; [exact H0|apply H1|apply H2, IH].
Qed.

Lemma wrap16_range (i : Z) : -32768 <= wrap16 i <= 32767.
Proof.
  unfold wrap16. pose proof (Z.mod_pos_bound i 65536 ltac:(lia)).
  destruct (Z.geb_spec (i mod 65536) 32768); lia.
Qed.

Lemma int16_of_bytes_spec (bs : list Z) :
  (int16_of_bytes bs = None <-> Nat.odd (length bs) = true) /\
  (forall vs, int16_of_bytes bs = Some vs ->
     length bs = (2 * length vs)%nat /\ Forall (fun v => -32768 <= v <= 32767) vs).
Proof.
  induction bs using list_ind2.
  - split; [split; discriminate|].
    intros vs H. injection H as <-. split; [reflexivity|constructor].
  - split; [split; reflexivity|discriminate].
  - destruct IHbs as [IH1 IH2].
    change (Nat.odd (length (a :: b :: bs))) with (Nat.odd (length bs)).
    cbn [int16_of_bytes]. destruct (int16_of_bytes bs) as [vs|] eqn:E.
    + split.
      * split; [discriminate|]. intros Ho. apply IH1 in Ho. discriminate.
      * intros vs' H. injection H as <-. destruct (IH2 vs eq_refl) as [Hl Hr].
        split; [simpl; lia|constructor; [apply wrap16_range|exact Hr]].
    + split; [split; [intros _; apply IH1; reflexivity|reflexivity]|discriminate].
Qed.

Lemma bytes_of_int16_bytes (vs : list Z) : Forall is_byte (bytes_of_int16 vs).
Proof.
  induction vs as [|v vs IH]; [constructor|].
  unfold bytes_of_int16 in *. cbn [flat_map].
  constructor; [|constructor; [|exact IH]]; unfold is_byte; Z.div_mod_to_equations; lia.
Qed.

Lemma int16_of_bytes_of_int16 (vs : list Z) :
  int16_of_bytes (bytes_of_int16 vs) = Some (map wrap16 vs).
Proof.
  induction vs as [|v vs IH]; [reflexivity|].
  unfold bytes_of_int16 in *. cbn [flat_map app int16_of_bytes]. rewrite IH.
  assert (E : v mod 256 + 256 * (v mod 65536 / 256) = v mod 65536)
    by (Z.div_mod_to_equations; lia).
  unfold wrap16 at 1. rewrite E, Z.mod_mod by lia. reflexivity.
Qed.

Lemma wrap16_float_to_pcm (x : Q) : wrap16 (float_to_pcm x) = float_to_pcm x.
Proof. apply PcmFacts.wrap16_small, wrap16_range. Qed.

Lemma pcm_to_float_eq (s : Z) : pcm_to_float s = (inject_Z s * (1 # 32768))%Q.
Proof. reflexivity. Qed.

Lemma pcm_to_float_range (s : Z) :
  -32768 <= s <= 32767 -> (-1 <= pcm_to_float s < 1)%Q.
Proof.
  intros Hs. rewrite pcm_to_float_eq.
  assert (H1 : (inject_Z (-32768) <= inject_Z s)%Q) by (rewrite <- Zle_Qle; lia).
  assert (H2 : (inject_Z s <= inject_Z 32767)%Q) by (rewrite <- Zle_Qle; lia).
  change (inject_Z (-32768)) with (-32768 # 1)%Q in H1.
  change (inject_Z 32767) with (32767 # 1)%Q in H2.
  split; lra.
Qed.

Close Scope Z_scope.
End MoreCodecFacts.

(* ================================================================== *)
(** * Further facts: scheduler bookkeeping *)
Module MoreSchedFacts.
Import Codec VoiceCall Props ExtraProps.

Lemma NoDup_snoc {A} (l : list A) (x : A) : NoDup l -> ~ In x l -> NoDup (l ++ [x]).
Proof.
  induction 1 as [|y l Hy Hl IH]; intros Hx; simpl.
  - constructor; [intros []|constructor].
  - constructor.
    + intros Hin. apply in_app_or in Hin as [Hin|[<-|[]]]; [contradiction|].
      apply Hx. left. reflexivity.
    + apply IH. intros Hin. apply Hx. right. exact Hin.
Qed.

Lemma NoDup_remove_any (l : list nat) (x : nat) : NoDup l -> NoDup (remove Nat.eq_dec x l).
Proof.
  induction 1 as [|y l Hy Hl IH]; simpl; [constructor|].
  destruct (Nat.eq_dec x y); [exact IH|].
  constructor; [|exact IH]. intros Hin. apply in_remove in Hin. tauto.
Qed.

Lemma NoDup_app_remove (a b : list nat) (x : nat) :
  NoDup (a ++ b) -> NoDup (a ++ remove Nat.eq_dec x b).
Proof.
  induction a as [|y a IH]; simpl; [apply NoDup_remove_any|].
  intros H. inversion H as [|? ? Hy Hn]; subst. constructor; [|apply IH, Hn].
  intros Hin. apply Hy. apply in_app_or in Hin as [Hin|Hin]; apply in_or_app; [left; exact Hin|].
  right. apply in_remove in Hin. tauto.
Qed.

Lemma run_preserves (P : VC -> Prop) :
  (forall e s, P s -> P (step e s)) -> forall evs s, P s -> P (run evs s).
Proof.
  intros Hs evs. induction evs as [|e evs IH]; intros s H; [exact H|].
  apply IH, Hs, H.
Qed.

(** The events other than messages and [ended] leave the scheduler and the
    speaking flag alone, and leave the waveform alone while speaking. *)
Lemma step_quiet (e : Event) (s : VC) :
  quiet e = true ->
  sched (step e s) = sched s /\ isModelSpeaking (step e s) = isModelSpeaking s /\
  (isModelSpeaking s = true -> waveformData (step e s) = waveformData s).
Proof.
  destruct e; intros Hq; try discriminate; cbn [step].
  - destruct micGranted; repeat split.
  - destruct (startMuted s); repeat split.
  - destruct (processor s) as [[]|]; [repeat split| |repeat split].
    unfold onaudioprocess. destruct (encode _); repeat split.
  - repeat split.
  - repeat split.
  - destruct (isModelSpeaking s) eqn:E; repeat split; cbn; congruence.
  - repeat split.
  - repeat split.
Qed.

Lemma onmessage_cases (now : Q) (rnd : nat -> Q) (m : Message) (s : VC) :
  onmessage now rnd m s = interrupt_branch m s \/
  onmessage now rnd m s = advance_cursor now (set_speaking true s) \/
  exists buf, onmessage now rnd m s =
              interrupt_branch m (schedule rnd buf (advance_cursor now (set_speaking true s))).
Proof.
  unfold onmessage. destruct (audioData m) as [[|c d]|]; auto.
  destruct (decode_chunk (c :: d)) as [buf|]; eauto.
Qed.

Lemma sched_inv_schedule (rnd : nat -> Q) (buf : AudioBuffer) (s : VC) :
  sched_inv (sched s) -> sched_inv (sched (schedule rnd buf s)).
Proof.
  unfold sched_inv, source_ids. cbn [schedule sched set_wave set_sched started sources stopped nextId].
  intros [H1 [H2 [H3 H4]]]. rewrite map_app. cbn [map fst].
  assert (Hn : ~ In (nextId (sched s)) (map (fun e => fst (fst e)) (started (sched s))))
    by (intros Hin; apply H1 in Hin; lia).
  split; [|split; [|split]].
  - intros i Hi. apply in_app_or in Hi as [Hi|[<-|[]]]; [apply H1 in Hi|]; lia.
  - apply NoDup_snoc; assumption.
  - rewrite app_assoc. apply NoDup_snoc; [exact H3|]. intros Hin. apply Hn, H4, Hin.
  - intros i Hi. rewrite app_assoc in Hi. apply in_app_or in Hi as [Hi|[<-|[]]].
    + apply in_or_app. left. apply H4, Hi.
    + apply in_or_app. right. left. reflexivity.
Qed.

Lemma sched_inv_interrupt (m : Message) (s : VC) :
  sched_inv (sched s) -> sched_inv (sched (interrupt_branch m s)).
Proof.
  unfold interrupt_branch. destruct (interrupted m); [|exact id].
  unfold sched_inv. cbn [sched set_speaking set_sched started sources stopped nextId].
  rewrite app_nil_r. exact id.
Qed.

Lemma sched_inv_step (e : Event) (s : VC) : sched_inv (sched s) -> sched_inv (sched (step e s)).
Proof.
  intros H. destruct (quiet e) eqn:Q.
  { rewrite (proj1 (step_quiet e s Q)). exact H. }
  destruct e; try discriminate; cbn [step].
  - destruct (onmessage_cases now rnd m s) as [E|[E|[buf E]]]; rewrite E.
    + apply sched_inv_interrupt, H.
    + exact H.
    + apply sched_inv_interrupt, sched_inv_schedule, H.
  - unfold on_ended.
    assert (Hs : sched_inv (sched (set_sched (mkSched (nextStartTime (sched s))
                   (remove Nat.eq_dec id (sources (sched s))) (stopped (sched s))
                   (started (sched s)) (nextId (sched s))) s))).
    { destruct H as [H1 [H2 [H3 H4]]]. unfold sched_inv. cbn [sched set_sched started sources stopped nextId].
      split; [exact H1|split; [exact H2|split]].
      - apply NoDup_app_remove, H3.
      - intros i Hi. apply H4. apply in_app_or in Hi as [Hi|Hi]; apply in_or_app; [left; exact Hi|].
        right. apply in_remove in Hi. tauto. }
    destruct (remove Nat.eq_dec id (sources (sched s))); exact Hs.
Qed.

Lemma sched_inv_init : sched_inv (sched init).
Proof.
  unfold sched_inv. cbn. split; [intros i []|split; [constructor|split; [constructor|intros i []]]].
Qed.


End MoreSchedFacts.

Module MoreSchedFacts2.
Import Codec VoiceCall Props ExtraProps MoreSchedFacts.

Lemma speaking_step (e : Event) (s : VC) :
  (sources (sched s) = [] \/ isModelSpeaking s = true) ->
  sources (sched (step e s)) = [] \/ isModelSpeaking (step e s) = true.
Proof.
  intros H. destruct (quiet e) eqn:Q.
  { destruct (step_quiet e s Q) as [E1 [E2 _]]. rewrite E1, E2. exact H. }
  destruct e; try discriminate; cbn [step].
  - assert (Hi : forall s', (sources (sched s') = [] \/ isModelSpeaking s' = true) ->
                 sources (sched (interrupt_branch m s')) = [] \/
                 isModelSpeaking (interrupt_branch m s') = true).
    { intros s' Hs'. unfold interrupt_branch. destruct (interrupted m); [left; reflexivity|exact Hs']. }
    destruct (onmessage_cases now rnd m s) as [E|[E|[buf E]]]; rewrite E.
    + apply Hi, H.
    + right. reflexivity.
    + apply Hi. right. reflexivity.
  - unfold on_ended.
    destruct (remove Nat.eq_dec id (sources (sched s))) as [|x l] eqn:R; [left; reflexivity|].
    right. cbn [isModelSpeaking set_sched]. destruct H as [H|H]; [|exact H].
    rewrite H in R. discriminate.
Qed.

End MoreSchedFacts2.

(* ================================================================== *)
(** * Further facts: connection lifecycle *)
Module LifeFacts.
Import VoiceCall ApiKey Lifecycle ExtraProps.

Lemma Forall_upd {A} (P : A -> Prop) (l : list A) (i : nat) (v : A) :
  Forall P l -> P v -> Forall P (upd l i v).
Proof.
  intros Hl Hv. revert i. induction Hl as [|x l Hx Hl IH]; intros [|i]; simpl;
    constructor; auto.
Qed.

Lemma Forall_nth {A} (P : A -> Prop) (l : list A) (i : nat) (x : A) :
  Forall P l -> nth_error l i = Some x -> P x.
Proof.
  intros Hl Hi. rewrite Forall_forall in Hl. apply Hl. eapply nth_error_In. exact Hi.
Qed.

Lemma or_default_nonempty (x d : list Z) : d <> [] -> or_default x d <> [].
Proof. destruct x; simpl; [exact id|discriminate]. Qed.

Lemma perm_eqb_enabled (p : Perm) : connect_enabled p = true -> perm_eqb p connecting = false.
Proof. destruct p; simpl; congruence. Qed.

Lemma life_inv_init : life_inv linit.
Proof.
  unfold life_inv. simpl. split; [constructor|split; [constructor|split; discriminate]].
Qed.

Lemma life_inv_step (e : LEvent) (s : Life) : life_inv s -> life_inv (lstep e s).
Proof.
  destruct s as [p em di cs ts ss iv tr nt d oc].
  unfold life_inv. cbn [lperm errorMessage debugInfo tasks sessions].
  intros [Ht [Hs [He Hd]]].
  destruct e; cbn [lstep].
  - destruct (connect_enabled p) eqn:Ep; cbn [lperm errorMessage debugInfo tasks sessions];
      [|auto].
    split; [apply Forall_app; split; [exact Ht|repeat constructor; exact Ep]|].
    split; [exact Hs|split; discriminate].
  - (* MicResolve *)
    destruct (nth_error ts i) as [[[q|q|q]|]|] eqn:N; cbn [lperm errorMessage debugInfo tasks sessions];
      try (split; [exact Ht|auto]).
    pose proof (Forall_nth _ _ _ _ Ht N) as Hq. simpl in Hq.
    split; [apply Forall_upd; [exact Ht|exact Hq]|].
    split; [exact Hs|split; discriminate].
  - (* MicReject *)
    destruct (nth_error ts i) as [[[q|q|q]|]|] eqn:N; cbn [lperm errorMessage debugInfo tasks sessions];
      try (split; [exact Ht|auto]).
    split; [apply Forall_upd; [exact Ht|exact I]|].
    split; [exact Hs|split; [discriminate|reflexivity]].
  - (* Connect *)
    destruct (nth_error ts i) as [[[q|q|q]|]|] eqn:N; cbn [lperm errorMessage debugInfo tasks sessions];
      try (split; [exact Ht|auto]).
    pose proof (Forall_nth _ _ _ _ Ht N) as Hq. simpl in Hq.
    split; [apply Forall_upd; [exact Ht|exact Hq]|].
    split; [apply Forall_app; split; [exact Hs|repeat constructor; exact Hq]|].
    split; [exact He|exact Hd].
  - (* SetupThrow *)
    destruct (nth_error ts i) as [[[q|q|q]|]|] eqn:N; cbn [lperm errorMessage debugInfo tasks sessions];
      try (split; [exact Ht|auto]);
      (split; [apply Forall_upd; [exact Ht|exact I]|]);
      (split; [exact Hs|split; [|discriminate]]);
      intros _; (split; [left; reflexivity|apply or_default_nonempty; discriminate]).
  - (* Resolved *)
    destruct (nth_error ts i) as [[[q|q|q]|]|] eqn:N; cbn [lperm errorMessage debugInfo tasks sessions];
      try (split; [exact Ht|auto]).
    split; [apply Forall_upd; [exact Ht|exact I]|]. auto.
  - (* SOpen *)
    destruct (nth_error ss j) eqn:N; cbn [lperm errorMessage debugInfo tasks sessions];
      [|auto].
    split; [exact Ht|split; [exact Hs|split; discriminate]].
  - (* SClose *)
    destruct (nth_error ss j) as [q|] eqn:N; [|auto].
    rewrite (perm_eqb_enabled q (Forall_nth _ _ _ _ Hs N)).
    cbn [lperm errorMessage debugInfo tasks sessions]. auto.
  - (* SError *)
    destruct (nth_error ss j) eqn:N; cbn [lperm errorMessage debugInfo tasks sessions];
      [|auto].
    split; [exact Ht|split; [exact Hs|split; [|discriminate]]].
    intros _. split; [right; reflexivity|apply or_default_nonempty; discriminate].
  - (* Tick *)
    destruct (existsb (Nat.eqb id) iv); cbn [lperm errorMessage debugInfo tasks sessions]; auto.
  - (* Unmount *)
    destruct tr; cbn [lperm errorMessage debugInfo tasks sessions]; auto.
Qed.

Lemma lrun_preserves (P : Life -> Prop) :
  (forall e s, P s -> P (lstep e s)) -> forall evs s, P s -> P (lrun evs s).
Proof.
  intros Hs evs. induction evs as [|e evs IH]; intros s H; [exact H|].
  apply IH, Hs, H.
Qed.

Lemma life_inv_run (evs : list LEvent) : life_inv (lrun evs linit).
Proof. apply lrun_preserves; [apply life_inv_step|apply life_inv_init]. Qed.

Lemma timer_step (e : LEvent) (s : Life) :
  e <> Unmount ->
  incl (intervals s) (intervals (lstep e s)) /\ (lduration s <= lduration (lstep e s))%Z.
Proof.
  intros Hu. destruct s as [p em di cs ts ss iv tr nt d oc].
  destruct e; cbn [lstep];
    repeat match goal with
    | |- context [match ?x with _ => _ end] => destruct x
    end;
    cbn [intervals lduration];
    try (split; [apply incl_refl|lia]).
  all: first [congruence|split; [apply incl_appl, incl_refl|lia]].
Qed.

End LifeFacts.

(* ================================================================== *)
(** * Further properties of the call screen *)
Module Extras.
Import Codec VoiceCall Props CodecFacts PcmFacts MoreCodecFacts ExtraProps MoreSchedFacts
       MoreSchedFacts2 ApiKey Lifecycle LifeFacts.
Open Scope Q_scope.

Theorem encode_output_shape (l : list Z) (Hl : Forall is_byte l) :
  exists e, encode l = Some e /\
    length e = (4 * ((length l + 2) / 3))%nat /\
    exists body pad, e = body ++ pad /\
      Forall (fun c => b64index c <> None) body /\
      (pad = [] \/ pad = [61%Z] \/ pad = [61; 61]%Z).
Proof.
  exists (btoa_groups l). split; [apply encode_bytes, Hl|].
  split; [apply btoa_groups_length|].
  exists (map b64char (sextets l)), (pad_of l).
  split; [apply btoa_groups_split|split; [|apply pad_cases]].
  apply Forall_map. eapply Forall_impl; [|apply sextets_range].
  intros i Hi. rewrite b64index_b64char by exact Hi. discriminate.
Qed.

Lemma encode_output_shape_witness :
  Forall is_byte [0; 255; 16; 64]%Z /\ encode [0; 255; 16; 64]%Z = Some [65; 80; 56; 81; 81; 65; 61; 61]%Z.
Proof.
  assert (H : Forall is_byte [0; 255; 16; 64]%Z) by (repeat constructor; unfold is_byte; lia).
  split; [exact H|].
  destruct (encode_output_shape _ H) as [e [E _]]. rewrite E.
  rewrite encode_bytes in E by exact H. injection E as <-. vm_compute. reflexivity.
Defined.

Theorem decode_rejects (s : list Z) :
  (exists c, In c s /\ is_ascii_ws c = false /\ c <> 61%Z /\ b64index c = None) \/
  (length (filter (fun c => negb (is_ascii_ws c)) s) mod 4 = 1)%nat ->
  decode s = None.
Proof.
  intros H. unfold decode, atob. cbv zeta.
  set (d := filter (fun c => negb (is_ascii_ws c)) s) in *.
  destruct H as [[c [Hin [Hws [H61 Hc]]]]|Hlen].
  - assert (Hd : In c d)
      by (apply filter_In; split; [exact Hin|rewrite Hws; reflexivity]).
    assert (Hx : forall d', (exists t, d = d' ++ t /\ Forall (fun x => x = 61%Z) t) ->
                            sextets_of d' = None).
    { intros d' [t [Et Ht]]. apply (sextets_of_bad d' c); [|exact Hc].
      rewrite Et in Hd. apply in_app_or in Hd as [Hd|Hd]; [exact Hd|].
      rewrite Forall_forall in Ht. specialize (Ht c Hd). contradiction. }
    destruct (Nat.eqb (length d mod 4) 0).
    + destruct (Nat.eqb (length (strip_pad d) mod 4) 1); [reflexivity|].
      rewrite (Hx _ (strip_pad_suffix d)). reflexivity.
    + destruct (Nat.eqb (length d mod 4) 1); [reflexivity|].
      assert (Hn : exists t, d = d ++ t /\ Forall (fun x => x = 61%Z) t)
        by (exists []; rewrite app_nil_r; split; [reflexivity|constructor]).
      rewrite (Hx d Hn). reflexivity.
  - rewrite Hlen. cbn [Nat.eqb]. rewrite Hlen. reflexivity.
Qed.

Lemma decode_rejects_witness :
  ((exists c, In c [65; 45; 66; 67]%Z /\ is_ascii_ws c = false /\ c <> 61%Z /\ b64index c = None) \/
   (length (filter (fun c => negb (is_ascii_ws c)) [65; 45; 66; 67]%Z) mod 4 = 1)%nat) /\
  decode [65; 45; 66; 67]%Z = None.
Proof.
  assert (H : (exists c, In c [65; 45; 66; 67]%Z /\ is_ascii_ws c = false /\ c <> 61%Z /\
                         b64index c = None) \/
              (length (filter (fun c => negb (is_ascii_ws c)) [65; 45; 66; 67]%Z) mod 4 = 1)%nat).
  { left. exists 45%Z. split; [right; left; reflexivity|].
    split; [reflexivity|split; [discriminate|reflexivity]]. }
  split; [exact H|exact (decode_rejects _ H)].
Defined.

Theorem decodeAudioData_fails (bs : list Z) :
  decodeAudioData bs 24000 = None <-> Nat.odd (length bs) = true \/ bs = [].
Proof.
  unfold decodeAudioData. destruct (int16_of_bytes_spec bs) as [H1 H2].
  destruct (int16_of_bytes bs) as [vs|] eqn:E.
  - destruct (H2 vs eq_refl) as [Hl _].
    destruct (Z.eqb_spec (Z.of_nat (length vs)) 0) as [Z0|Z0].
    + split; [intros _; right; apply length_zero_iff_nil; lia|reflexivity].
    + split; [discriminate|]. intros [Ho|Hn].
      * apply H1 in Ho. discriminate.
      * subst bs. simpl in Hl. lia.
  - split; [intros _; left; apply H1; reflexivity|reflexivity].
Qed.

Theorem decodeAudioData_ok (bs : list Z) (r : Z) (buf : AudioBuffer) :
  decodeAudioData bs r = Some buf ->
  buf_samples buf <> [] /\
  length bs = (2 * length (buf_samples buf))%nat /\
  Forall (fun x => -1 <= x < 1) (buf_samples buf) /\
  buf_sampleRate buf = r /\
  buf_duration buf = inject_Z (Z.of_nat (length (buf_samples buf))) / inject_Z r.
Proof.
  unfold decodeAudioData. destruct (int16_of_bytes_spec bs) as [_ H2].
  destruct (int16_of_bytes bs) as [vs|]; [|discriminate].
  destruct (H2 vs eq_refl) as [Hl Hr].
  destruct (Z.eqb_spec (Z.of_nat (length vs)) 0) as [Z0|Z0]; [discriminate|].
  intros H. injection H as <-. cbn [buf_samples buf_sampleRate buf_duration].
  rewrite length_map.
  split; [destruct vs; [simpl in Z0; lia|discriminate]|].
  split; [exact Hl|]. split; [|split; reflexivity].
  apply Forall_map. eapply Forall_impl; [|exact Hr].
  intros v Hv. apply pcm_to_float_range, Hv.
Qed.

Lemma decodeAudioData_ok_witness :
  exists buf, decodeAudioData [0; 128; 255; 127]%Z 24000 = Some buf /\
    Forall (fun x => -1 <= x < 1) (buf_samples buf) /\ buf_samples buf = [-32768 # 32768; 32767 # 32768].
Proof.
  assert (E : exists buf, decodeAudioData [0; 128; 255; 127]%Z 24000 = Some buf /\
                         buf_samples buf = [-32768 # 32768; 32767 # 32768])
    by (eexists; split; vm_compute; reflexivity).
  destruct E as [buf [E1 E2]]. exists buf. split; [exact E1|split; [|exact E2]].
  exact (proj1 (proj2 (proj2 (decodeAudioData_ok _ _ _ E1)))).
Defined.

Theorem capture_payload_decodes (frame : list Q) (s : VC) :
  frame <> [] ->
  exists e buf,
    sent (onaudioprocess false frame s) = sent s ++ [e] /\
    decode_chunk e = Some buf /\
    buf_samples buf = map (fun x => pcm_to_float (float_to_pcm x)) frame /\
    buf_duration buf = inject_Z (Z.of_nat (length frame)) / inject_Z 24000.
Proof.
  intros Hf. set (vs := map float_to_pcm frame).
  assert (Hw : map wrap16 vs = vs).
  { unfold vs. rewrite map_map. apply map_ext. apply wrap16_float_to_pcm. }
  exists (btoa_groups (bytes_of_int16 vs)).
  unfold onaudioprocess, decode_chunk. fold vs.
  rewrite encode_bytes by apply bytes_of_int16_bytes.
  rewrite decode_btoa_groups by apply bytes_of_int16_bytes.
  unfold decodeAudioData. rewrite int16_of_bytes_of_int16, Hw.
  destruct (Z.eqb_spec (Z.of_nat (length vs)) 0) as [Z0|Z0].
  - unfold vs in Z0. rewrite length_map in Z0. destruct frame; [contradiction|simpl in Z0; lia].
  - eexists. split; [reflexivity|split; [reflexivity|]]. cbn [buf_samples buf_duration].
    unfold vs. rewrite map_map, length_map. split; reflexivity.
Qed.

Lemma capture_payload_decodes_witness :
  [1 # 2; -1] <> [] /\
  exists e buf,
    sent (onaudioprocess false [1 # 2; -1] init) = [e] /\
    decode_chunk e = Some buf /\ buf_samples buf = [16384 # 32768; -32768 # 32768].
Proof.
  assert (H : [1 # 2; -1] <> []) by discriminate.
  split; [exact H|].
  destruct (capture_payload_decodes _ init H) as [e [buf [H1 [H2 [H3 _]]]]].
  exists e, buf. split; [exact H1|split; [exact H2|]]. rewrite H3. vm_compute. reflexivity.
Defined.

Theorem quantisation_error (x : Q) :
  -1 <= x < 1 ->
  (0 <= x -> 0 <= pcm_to_float (float_to_pcm x) /\ pcm_to_float (float_to_pcm x) <= x /\
             x - pcm_to_float (float_to_pcm x) < 1 # 32768) /\
  (x < 0 -> x <= pcm_to_float (float_to_pcm x) /\ pcm_to_float (float_to_pcm x) <= 0 /\
            pcm_to_float (float_to_pcm x) - x < 1 # 32768).
Proof.
  intros [H1 H2].
  assert (Ht : float_to_pcm x = Qtrunc (x * 32768)).
  { unfold float_to_pcm, ToInt16. change (inject_Z 32768) with 32768.
    apply wrap16_small, Qtrunc_bounds; lra. }
  rewrite Ht, pcm_to_float_eq. unfold Qtrunc.
  destruct (Qle_bool 0 (x * 32768)) eqn:E.
  - apply Qle_bool_iff in E.
    pose proof (Qfloor_le (x * 32768)) as F1.
    pose proof (Qlt_floor (x * 32768)) as F2. rewrite inject_Z_plus in F2.
    pose proof (Qfloor_resp_le 0 (x * 32768) E) as F3.
    rewrite (eq_refl : Qfloor 0 = 0%Z) in F3. rewrite Zle_Qle in F3.
    change (inject_Z 0) with 0 in F3. change (inject_Z 1) with 1 in F2.
    split; intros; repeat split; lra.
  - assert (E' : x * 32768 < 0).
    { apply Qnot_le_lt. intros C. apply Qle_bool_iff in C. congruence. }
    pose proof (Qle_ceiling (x * 32768)) as F1.
    pose proof (Qceiling_lt (x * 32768)) as F2. rewrite <- Z.add_opp_r, inject_Z_plus, inject_Z_opp in F2.
    pose proof (Qceiling_resp_le (x * 32768) 0 (Qlt_le_weak _ _ E')) as F3.
    rewrite (eq_refl : Qceiling 0 = 0%Z) in F3. rewrite Zle_Qle in F3.
    change (inject_Z 0) with 0 in F3. change (inject_Z 1) with 1 in F2.
    split; intros; repeat split; lra.
Qed.

Lemma quantisation_error_witness :
  -1 <= 1 # 3 < 1 /\ 0 <= 1 # 3 /\
  (1 # 3) - pcm_to_float (float_to_pcm (1 # 3)) < 1 # 32768 /\
  pcm_to_float (float_to_pcm (1 # 3)) == 10922 # 32768.
Proof.
  assert (H : -1 <= 1 # 3 < 1) by (split; lra).
  assert (H0 : 0 <= 1 # 3) by lra.
  split; [exact H|split; [exact H0|split]].
  - exact (proj2 (proj2 (proj1 (quantisation_error _ H) H0))).
  - vm_compute. reflexivity.
Defined.

Theorem source_bookkeeping (evs : list Event) :
  let sc := sched (run evs init) in
  NoDup (source_ids (started sc)) /\
  NoDup (stopped sc ++ sources sc) /\
  incl (stopped sc ++ sources sc) (source_ids (started sc)).
Proof.
  intros sc.
  assert (H : sched_inv sc)
    by (apply (run_preserves (fun s => sched_inv (sched s))); [apply sched_inv_step|apply sched_inv_init]).
  destruct H as [_ H]. exact H.
Qed.

Theorem active_source_means_speaking (evs : list Event) :
  sources (sched (run evs init)) <> [] -> isModelSpeaking (run evs init) = true.
Proof.
  intros Hne.
  assert (H : sources (sched (run evs init)) = [] \/ isModelSpeaking (run evs init) = true)
    by (apply (run_preserves (fun s => sources (sched s) = [] \/ isModelSpeaking s = true));
        [apply speaking_step|left; reflexivity]).
  destruct H as [H|H]; [contradiction|exact H].
Qed.

Lemma active_source_means_speaking_witness :
  let evs := [StartCall true; Open; Msg 1 (fun _ => 0) (mkMessage (Some (repeat 65%Z 8)) false)] in
  sources (sched (run evs init)) <> [] /\ isModelSpeaking (run evs init) = true.
Proof.
  intros evs.
  assert (H : sources (sched (run evs init)) <> []) by (vm_compute; discriminate).
  split; [exact H|exact (active_source_means_speaking evs H)].
Defined.

Theorem undecodable_chunk_leaves_speaking (now : Q) (rnd : nat -> Q) (d : list Z) (b : bool)
    (s : VC) (evs : list Event) :
  d <> [] -> decode_chunk d = None -> forallb quiet evs = true ->
  let s1 := onmessage now rnd (mkMessage (Some d) b) s in
  isModelSpeaking s1 = true /\
  sources (sched s1) = sources (sched s) /\ stopped (sched s1) = stopped (sched s) /\
  started (sched s1) = started (sched s) /\
  nextStartTime (sched s1) = js_max (nextStartTime (sched s)) now /\
  waveformData s1 = waveformData s /\
  isModelSpeaking (run evs s1) = true /\ waveformData (run evs s1) = waveformData s /\
  sched (run evs s1) = sched s1.
Proof.
  intros Hd Hn Hq s1.
  assert (E : s1 = advance_cursor now (set_speaking true s)).
  { subst s1. unfold onmessage. cbn [audioData].
    destruct d as [|c d]; [contradiction|]. rewrite Hn. reflexivity. }
  assert (Hrun : forall evs' st, forallb quiet evs' = true -> isModelSpeaking st = true ->
            isModelSpeaking (run evs' st) = true /\ waveformData (run evs' st) = waveformData st /\
            sched (run evs' st) = sched st).
  { induction evs' as [|e evs' IH]; intros st Hq' Hsp; [split; [exact Hsp|split; reflexivity]|].
    simpl in Hq'. apply andb_true_iff in Hq' as [He Hq'].
    destruct (step_quiet e st He) as [E1 [E2 E3]].
    destruct (IH (step e st) Hq') as [F1 [F2 F3]]; [rewrite E2; exact Hsp|].
    cbn [run fold_left]. fold (run evs' (step e st)).
    rewrite F2, F3, E1, (E3 Hsp). split; [exact F1|split; reflexivity]. }
  rewrite E. cbn [advance_cursor set_speaking set_sched sched isModelSpeaking waveformData
                  sources stopped started nextStartTime].
  destruct (Hrun evs (advance_cursor now (set_speaking true s)) Hq eq_refl) as [G1 [G2 G3]].
  rewrite G1, G2, G3. repeat split.
Qed.

Lemma undecodable_chunk_leaves_speaking_witness :
  let s := run [StartCall true; Open] init in
  [65%Z] <> [] /\ decode_chunk [65%Z] = None /\ forallb quiet [WaveTick; TimerTick] = true /\
  isModelSpeaking (run [WaveTick; TimerTick]
    (onmessage 1 (fun _ => 0) (mkMessage (Some [65%Z]) true) s)) = true.
Proof.
  intros s.
  assert (H1 : [65%Z] <> []) by discriminate.
  assert (H2 : decode_chunk [65%Z] = None) by reflexivity.
  assert (H3 : forallb quiet [WaveTick; TimerTick] = true) by reflexivity.
  split; [exact H1|split; [exact H2|split; [exact H3|]]].
  exact (proj1 (proj2 (proj2 (proj2 (proj2 (proj2 (proj2
    (undecodable_chunk_leaves_speaking 1 (fun _ => 0) _ true s _ H1 H2 H3)))))))).
Defined.

Close Scope Q_scope.
Import String.

Theorem error_screen_messages (evs : list LEvent) :
  let s := lrun evs linit in
  (lperm s = error ->
     (errorMessage s = units "Connection failed at startup." \/
      errorMessage s = units "API Issue Detected.") /\ debugInfo s <> []) /\
  (lperm s = denied ->
     errorMessage s = units "Mic access nahi mila. Browser settings check karein.").
Proof. intros s. destruct (life_inv_run evs) as [_ [_ H]]. exact H. Qed.

Theorem onclose_calls_onClose (evs : list LEvent) (j : nat) (reason : list Z) :
  let s := lrun evs linit in
  (j < List.length (sessions s))%nat ->
  let s' := lstep (SClose j reason) s in
  onCloseCalls s' = S (onCloseCalls s) /\ lperm s' = lperm s /\
  errorMessage s' = errorMessage s /\ debugInfo s' = debugInfo s.
Proof.
  intros s Hj s'. destruct (life_inv_run evs) as [_ [Hs _]]. fold s in Hs.
  apply nth_error_Some in Hj. destruct (nth_error (sessions s) j) as [q|] eqn:N; [|congruence].
  pose proof (perm_eqb_enabled q (Forall_nth _ _ _ _ Hs N)) as Hq.
  subst s'. destruct s as [p em di cs ts ss iv tr nt d oc]. cbn [sessions] in N.
  cbn [lstep]. rewrite N, Hq. repeat split.
Qed.

Theorem duration_timer_not_cleared (evs : list LEvent) (s : Life) :
  ~ In Unmount evs ->
  incl (intervals s) (intervals (lrun evs s)) /\ (lduration s <= lduration (lrun evs s))%Z /\
  (forall t, In t (intervals (lrun evs s)) -> timerRef (lrun evs s) <> Some t ->
     In t (intervals (lstep Unmount (lrun evs s)))).
Proof.
  intros Hu. split; [|split].
  - revert s. induction evs as [|e evs IH]; intros s; [apply incl_refl|].
    cbn [lrun fold_left]. fold (lrun evs (lstep e s)).
    assert (He : e <> Unmount) by (intros ->; apply Hu; left; reflexivity).
    eapply incl_tran; [apply (proj1 (timer_step e s He))|].
    apply IH. intros Hin. apply Hu. right. exact Hin.
  - revert s. induction evs as [|e evs IH]; intros s; [apply Z.le_refl|].
    cbn [lrun fold_left]. fold (lrun evs (lstep e s)).
    assert (He : e <> Unmount) by (intros ->; apply Hu; left; reflexivity).
    pose proof (proj2 (timer_step e s He)).
    assert (lduration (lstep e s) <= lduration (lrun evs (lstep e s)))%Z
      by (apply IH; intros Hin; apply Hu; right; exact Hin).
    lia.
  - intros t Ht Hr. destruct (lrun evs s) as [p em di cs ts ss iv tr nt d oc].
    cbn [intervals timerRef] in *. cbn [lstep]. destruct tr as [t0|]; [|exact Ht].
    cbn [intervals]. apply in_in_remove; [congruence|exact Ht].
Qed.

Lemma duration_timer_not_cleared_witness :
  let evs := [Click; MicResolve 0; Connect 0; SOpen 0; SError 0 [];
              Click; MicResolve 1; Connect 1; SOpen 1] in
  ~ In Unmount evs /\ intervals (lrun evs linit) = [1; 2]%nat /\
  In 1%nat (intervals (lstep Unmount (lrun evs linit))).
Proof.
  intros evs.
  assert (H : ~ In Unmount evs) by (simpl; intuition discriminate).
  assert (E : intervals (lrun evs linit) = [1; 2]%nat) by (vm_compute; reflexivity).
  split; [exact H|split; [exact E|]].
  apply (proj2 (proj2 (duration_timer_not_cleared evs linit H))).
  - rewrite E. left. reflexivity.
  - vm_compute. discriminate.
Defined.

Lemma onclose_calls_onClose_witness :
  let evs := [Click; MicResolve 0; Connect 0] in
  (0 < List.length (sessions (lrun evs linit)))%nat /\
  lperm (lrun evs linit) = connecting /\
  lperm (lstep (SClose 0 []) (lrun evs linit)) = connecting /\
  onCloseCalls (lstep (SClose 0 []) (lrun evs linit)) = 1%nat.
Proof.
  intros evs.
  assert (H : (0 < List.length (sessions (lrun evs linit)))%nat) by (vm_compute; lia).
  destruct (onclose_calls_onClose evs 0 [] H) as [H1 [H2 _]].
  split; [exact H|split; [vm_compute; reflexivity|split]].
  - rewrite H2. vm_compute. reflexivity.
  - rewrite H1. vm_compute. reflexivity.
Defined.

Lemma error_screen_messages_witness :
  let evs := [Click; MicResolve 0; Connect 0; SError 0 []] in
  lperm (lrun evs linit) = error /\
  errorMessage (lrun evs linit) = units "API Issue Detected." /\
  debugInfo (lrun evs linit) <> [].
Proof.
  intros evs.
  assert (H : lperm (lrun evs linit) = error) by (vm_compute; reflexivity).
  split; [exact H|split; [vm_compute; reflexivity|]].
  exact (proj2 (proj1 (error_screen_messages evs) H)).
Defined.

Theorem apikey_info_prefix_only (k1 k2 : list Z) :
  firstn 3 k1 = firstn 3 k2 -> k1 <> units "undefined" -> k2 <> units "undefined" ->
  getApiKeyInfo (Some k1) = getApiKeyInfo (Some k2) /\
  (k1 = [] \/
   getApiKeyInfo (Some k1) = units "Exists (Starts with: " ++ firstn 3 k1 ++ units "...)").
Proof.
  intros Hf H1 H2.
  destruct k1 as [|a k1], k2 as [|b k2]; try discriminate Hf.
  - split; [reflexivity|left; reflexivity].
  - unfold getApiKeyInfo. cbv beta iota.
    destruct (list_eq_dec Z.eq_dec (a :: k1) (units "undefined")) as [E|_]; [contradiction|].
    destruct (list_eq_dec Z.eq_dec (b :: k2) (units "undefined")) as [E|_]; [contradiction|].
    rewrite Hf. split; [reflexivity|right; reflexivity].
Qed.

Lemma apikey_info_prefix_only_witness :
  firstn 3 (units "AIzaSyB7") = firstn 3 (units "AIzQ") /\
  units "AIzaSyB7" <> units "undefined" /\ units "AIzQ" <> units "undefined" /\
  getApiKeyInfo (Some (units "AIzaSyB7")) = getApiKeyInfo (Some (units "AIzQ")) /\
  getApiKeyInfo (Some (units "AIzaSyB7")) = units "Exists (Starts with: AIz...)".
Proof.
  assert (H0 : firstn 3 (units "AIzaSyB7") = firstn 3 (units "AIzQ")) by reflexivity.
  assert (H1 : units "AIzaSyB7" <> units "undefined") by discriminate.
  assert (H2 : units "AIzQ" <> units "undefined") by discriminate.
  split; [exact H0|split; [exact H1|split; [exact H2|split]]].
  - exact (proj1 (apikey_info_prefix_only _ _ H0 H1 H2)).
  - vm_compute. reflexivity.
Defined.

End Extras.
